(** * update_tui.py: a one-shot pattern rewrite of a Go source file

    The script reads one file in text mode, applies [re.sub] with a fixed
    pattern, a fixed replacement and [flags=re.MULTILINE], writes the
    result back to the same path and prints one line.

    The development below embeds the script as a program over a file
    system and an event trace, together with the part of Python's [re]
    module and of text-mode file I/O that the script calls. *)

From Stdlib Require Import NArith String Ascii.
From stdpp Require Import gmap strings list.

Set Default Proof Using "Type".

(** ** Characters and text

    A Python [str] is a sequence of code points; a code point is an [N].
    A file is modelled by the text its bytes decode to: the platform codec
    is taken to be a bijection on the files considered and stays outside
    the model, the newline handling of text mode stays inside. *)

Abbreviation char := N (only parsing).
Abbreviation text := (list N) (only parsing).

Definition txt (s : string) : text := N_of_ascii <$> list_ascii_of_string s.

Definition BEL : char := 7%N.
Definition BS : char := 8%N.
Definition TAB : char := 9%N.
Definition LF : char := 10%N.
Definition VT : char := 11%N.
Definition FF : char := 12%N.
Definition CR : char := 13%N.
Definition DQUOTE : char := 34%N.
Definition BACKSLASH : char := 92%N.
(** U+2192 RIGHTWARDS ARROW, the selection marker of the TUI. *)
Definition ARROW : char := 8594%N.

Definition is_ch (a : ascii) (c : char) : bool := (c =? N_of_ascii a)%N.

Definition is_digit (c : char) : bool := ((48 <=? c) && (c <=? 57))%N.
Definition is_octdigit (c : char) : bool := ((48 <=? c) && (c <=? 55))%N.
Definition is_ascii_letter (c : char) : bool :=
  (((65 <=? c) && (c <=? 90)) || ((97 <=? c) && (c <=? 122)))%N.
Definition digit_val (c : char) : nat := N.to_nat (c - 48)%N.

(** ** Regular expressions: the fragment of Python's pattern language
    covered by the model. *)

Inductive regex : Type :=
| Empty
| Lit (c : char)
| AnyChar                                (* [.] without re.DOTALL *)
| Bol                                    (* [^] under re.MULTILINE *)
| Eol                                    (* [$] under re.MULTILINE *)
| Cat (r1 r2 : regex)
| Alt (r1 r2 : regex)
| Rep (min : nat) (max : option nat) (r : regex)   (* greedy repeat *)
| Group (n : nat) (r : regex).           (* capturing group number n *)

Definition seq_re (rs : list regex) : regex := foldr Cat Empty rs.

Fixpoint alt_re (r : regex) (rs : list regex) : regex :=
  match rs with
  | [] => r
  | r' :: rs' => Alt r (alt_re r' rs')
  end.

(** The regex matching exactly the text [t], character by character. *)
Definition literal_re (t : text) : regex := seq_re (Lit <$> t).

(** *** Parsing a pattern (sre_parse)

    [PError] is Python's [re.error]. [PUnsupported] marks a pattern that
    uses syntax outside the modelled fragment (character sets, counted and
    lazy or possessive repeats, look-around and named groups, class and
    numeric escapes): the model makes no statement about such a pattern. *)

Inductive compiled : Type :=
| POk (r : regex) (groups : nat)
| PError
| PUnsupported.

Inductive item_kind := KAtom | KAnchor | KRepeat.

(** One open (sub)pattern: finished branches and the branch being read,
    both latest first. *)
Record frame := Frame {
  f_alts : list regex;
  f_seq : list (item_kind * regex)
}.

Record pstate := PState {
  p_cur : frame;
  p_open : list (option nat * frame);   (* enclosing groups, innermost first *)
  p_groups : nat                        (* capturing groups opened so far *)
}.

Definition branch_re (f : frame) : regex := seq_re (rev (snd <$> f_seq f)).

Definition frame_re (f : frame) : regex :=
  match rev (branch_re f :: f_alts f) with
  | [] => Empty
  | r :: rs => alt_re r rs
  end.

Definition push_item (st : pstate) (k : item_kind) (r : regex) : pstate :=
  PState (Frame (f_alts (p_cur st)) ((k, r) :: f_seq (p_cur st)))
         (p_open st) (p_groups st).

Definition next_branch (st : pstate) : pstate :=
  PState (Frame (branch_re (p_cur st) :: f_alts (p_cur st)) [])
         (p_open st) (p_groups st).

Definition open_group (capturing : bool) (st : pstate) : pstate :=
  if capturing
  then PState (Frame [] []) ((Some (S (p_groups st)), p_cur st) :: p_open st)
              (S (p_groups st))
  else PState (Frame [] []) ((None, p_cur st) :: p_open st) (p_groups st).

Definition close_group (st : pstate) : option pstate :=
  match p_open st with
  | [] => None
  | (g, parent) :: rest =>
      let body := frame_re (p_cur st) in
      let r := match g with Some n => Group n body | None => body end in
      Some (PState (Frame (f_alts parent) ((KAtom, r) :: f_seq parent))
                   rest (p_groups st))
  end.

Inductive escape_result := EscLit (c : char) | EscBad | EscUnsupported.

(** The character after a backslash in a pattern (sre_parse._escape). *)
Definition pattern_escape (e : char) : escape_result :=
  if is_digit e then EscUnsupported
  else if is_ascii_letter e then
    if is_ch "n" e then EscLit LF
    else if is_ch "t" e then EscLit TAB
    else if is_ch "r" e then EscLit CR
    else if is_ch "f" e then EscLit FF
    else if is_ch "v" e then EscLit VT
    else if is_ch "a" e then EscLit BEL
    else if is_ch "A" e || is_ch "b" e || is_ch "B" e || is_ch "d" e
         || is_ch "D" e || is_ch "s" e || is_ch "S" e || is_ch "w" e
         || is_ch "W" e || is_ch "Z" e || is_ch "z" e || is_ch "x" e
         || is_ch "u" e || is_ch "U" e || is_ch "N" e
    then EscUnsupported
    else EscBad
  else EscLit e.

(** A quantifier [*], [+] or [?] applied to the last item of the branch. *)
Definition quantify (min : nat) (max : option nat) (lazy_mark : bool)
    (st : pstate) : pstate + compiled :=
  match f_seq (p_cur st) with
  | [] => inr PError                            (* nothing to repeat *)
  | (KAnchor, _) :: _ => inr PError             (* nothing to repeat *)
  | (KRepeat, _) :: _ =>
      if lazy_mark then inr PUnsupported        (* lazy or possessive *)
      else inr PError                           (* multiple repeat *)
  | (KAtom, r) :: items =>
      inl (PState (Frame (f_alts (p_cur st)) ((KRepeat, Rep min max r) :: items))
                  (p_open st) (p_groups st))
  end.

Definition finish (st : pstate) : compiled :=
  match p_open st with
  | [] => POk (frame_re (p_cur st)) (p_groups st)
  | _ :: _ => PError                            (* missing ) *)
  end.

Fixpoint parse (p : text) (st : pstate) : compiled :=
  match p with
  | [] => finish st
  | c :: p1 =>
      if (c =? BACKSLASH)%N then
        match p1 with
        | [] => PError                          (* bad escape (end of pattern) *)
        | e :: p2 =>
            match pattern_escape e with
            | EscLit x => parse p2 (push_item st KAtom (Lit x))
            | EscBad => PError
            | EscUnsupported => PUnsupported
            end
        end
      else if is_ch "(" c then
        match p1 with
        | q :: p2 =>
            if is_ch "?" q then
              match p2 with
              | [] => PError                    (* unexpected end of pattern *)
              | k :: p3 =>
                  if is_ch ":" k then parse p3 (open_group false st)
                  else PUnsupported
              end
            else parse p1 (open_group true st)
        | [] => parse p1 (open_group true st)
        end
      else if is_ch ")" c then
        match close_group st with
        | None => PError                        (* unbalanced parenthesis *)
        | Some st' => parse p1 st'
        end
      else if is_ch "|" c then parse p1 (next_branch st)
      else if is_ch "*" c then
        match quantify 0 None false st with
        | inl st' => parse p1 st'
        | inr e => e
        end
      else if is_ch "+" c then
        match quantify 1 None true st with
        | inl st' => parse p1 st'
        | inr e => e
        end
      else if is_ch "?" c then
        match quantify 0 (Some 1) true st with
        | inl st' => parse p1 st'
        | inr e => e
        end
      else if is_ch "." c then parse p1 (push_item st KAtom AnyChar)
      else if is_ch "^" c then parse p1 (push_item st KAnchor Bol)
      else if is_ch "$" c then parse p1 (push_item st KAnchor Eol)
      else if is_ch "[" c || is_ch "{" c then PUnsupported
      else parse p1 (push_item st KAtom (Lit c))
  end.

(** [re.compile(pattern, re.MULTILINE)]. *)
Definition compile (pattern : text) : compiled :=
  parse pattern (PState (Frame [] []) [] 0).

(** ** The matching engine (_sre)

    The engine is a backtracking matcher. It is modelled by the list of
    all ways to match, in the order in which the engine tries them: the
    match that the engine reports is the first one that the caller
    accepts. A state holds the character before the current position
    (for [^]), the text still to read, and the groups captured so far,
    latest first. *)

Record mstate := MState {
  m_prev : option char;
  m_rest : text;
  m_caps : list (nat * text)
}.

Definition at_bol (st : mstate) : bool :=
  match m_prev st with
  | None => true
  | Some c => (c =? LF)%N
  end.

Definition at_eol (st : mstate) : bool :=
  match m_rest st with
  | [] => true
  | c :: _ => (c =? LF)%N
  end.

Definition step_char (p : char -> bool) (st : mstate) : list mstate :=
  match m_rest st with
  | c :: t => if p c then [MState (Some c) t (m_caps st)] else []
  | [] => []
  end.

(** The text read between state [st] and a later state [st']. *)
Definition consumed (st st' : mstate) : text :=
  take (length (m_rest st) - length (m_rest st')) (m_rest st).

Definition set_group (n : nat) (st st' : mstate) : mstate :=
  MState (m_prev st') (m_rest st') ((n, consumed st st') :: m_caps st').

Definition below (count : nat) (max : option nat) : bool :=
  match max with
  | None => true
  | Some m => count <? m
  end.

(** The repeat loop (SRE_OP_MAX_UNTIL). [count] iterations are done;
    [last] is the length of the text that was left when the previous
    optional iteration started: a further iteration is tried only from a
    different position, so an iteration that reads nothing is not
    repeated. Below [min] the body is mandatory. *)
Fixpoint rep_loop (body : mstate -> list mstate) (min : nat) (max : option nat)
    (fuel count : nat) (last : option nat) (st : mstate) : list mstate :=
  match fuel with
  | 0 => []
  | S fuel' =>
      if count <? min then
        body st ≫= rep_loop body min max fuel' (S count) last
      else
        let here := length (m_rest st) in
        (if below count max && negb (bool_decide (last = Some here))
         then body st ≫= rep_loop body min max fuel' (S count) (Some here)
         else [])
        ++ [st]
  end.

Fixpoint run_re (r : regex) (st : mstate) : list mstate :=
  match r with
  | Empty => [st]
  | Lit c => step_char (N.eqb c) st
  | AnyChar => step_char (fun x => negb (x =? LF)%N) st
  | Bol => if at_bol st then [st] else []
  | Eol => if at_eol st then [st] else []
  | Cat r1 r2 => run_re r1 st ≫= run_re r2
  | Alt r1 r2 => run_re r1 st ++ run_re r2 st
  | Rep min max r1 =>
      rep_loop (run_re r1) min max (length (m_rest st) + min + 2) 0 None st
  | Group n r1 => set_group n st <$> run_re r1 st
  end.

(** One match found by the engine: the text passed over before it, the
    matched text, the captured groups, and where the scan goes on. *)
Record found := Found {
  skipped : text;
  matched : text;
  groups_of : list (nat * text);
  resume : mstate
}.

(** A match attempt at one position (SRE(match) at top level). With
    [must_advance] a match that reads nothing is refused and the engine
    backtracks into the next way to match. *)
Definition match_here (re : regex) (must_advance : bool) (prev : option char)
    (rest : text) : option found :=
  let st := MState prev rest [] in
  (fun st' => Found [] (consumed st st') (m_caps st') (MState (m_prev st') (m_rest st') []))
  <$> find (fun st' => negb must_advance || (length (m_rest st') <? length rest))
           (run_re re st).

Definition skip (c : char) (f : found) : found :=
  Found (c :: skipped f) (matched f) (groups_of f) (resume f).

(** [sre_search]: the first position, from the current one on, at which
    the pattern matches; [must_advance] only binds at the first one. *)
Fixpoint search (re : regex) (must_advance : bool) (prev : option char)
    (rest : text) : option found :=
  match match_here re must_advance prev rest with
  | Some f => Some f
  | None =>
      match rest with
      | [] => None
      | c :: rest' => skip c <$> search re false (Some c) rest'
      end
  end.

(** *** Replacement templates (sre_parse.parse_template) *)

Inductive piece := TLit (c : char) | TGroup (n : nat).

Inductive template : Type :=
| TOk (ps : list piece)
| TError                    (* re.error *)
| TUnsupported.             (* octal escapes and named references *)

Definition tcons (p : piece) (t : template) : template :=
  match t with
  | TOk ps => TOk (p :: ps)
  | _ => t
  end.

Definition template_escape (e : char) : option char :=
  if is_ch "a" e then Some BEL
  else if is_ch "b" e then Some BS
  else if is_ch "f" e then Some FF
  else if is_ch "n" e then Some LF
  else if is_ch "r" e then Some CR
  else if is_ch "t" e then Some TAB
  else if is_ch "v" e then Some VT
  else if (e =? BACKSLASH)%N then Some BACKSLASH
  else None.

Definition group_ref (groups n : nat) (t : template) : template :=
  if n <=? groups then tcons (TGroup n) t else TError.

Fixpoint parse_template (groups : nat) (s : text) : template :=
  match s with
  | [] => TOk []
  | c :: s1 =>
      if (c =? BACKSLASH)%N then
        match s1 with
        | [] => TError                          (* bad escape (end of pattern) *)
        | e :: s2 =>
            if is_ch "g" e then TUnsupported
            else if is_ch "0" e then TUnsupported
            else if is_digit e then
              match s2 with
              | d :: s3 =>
                  if is_digit d then
                    if is_octdigit e && is_octdigit d
                       && match s3 with o :: _ => is_octdigit o | [] => false end
                    then TUnsupported
                    else group_ref groups (10 * digit_val e + digit_val d)
                                   (parse_template groups s3)
                  else group_ref groups (digit_val e) (parse_template groups s2)
              | [] => group_ref groups (digit_val e) (parse_template groups s2)
              end
            else
              match template_escape e with
              | Some x => tcons (TLit x) (parse_template groups s2)
              | None =>
                  if is_ascii_letter e then TError        (* bad escape *)
                  else tcons (TLit BACKSLASH) (tcons (TLit e) (parse_template groups s2))
              end
        end
      else tcons (TLit c) (parse_template groups s1)
  end.

(** [re._compile_template]: a replacement without a backslash is taken as
    it is, any other one is parsed as a template. *)
Definition compile_template (groups : nat) (repl : text) : template :=
  if bool_decide (BACKSLASH ∈ repl) then parse_template groups repl
  else TOk (TLit <$> repl).

Definition group_text (f : found) (n : nat) : text :=
  match n with
  | 0 => matched f
  | _ => default [] (snd <$> find (fun g => fst g =? n) (groups_of f))
  end.

Definition expand_piece (f : found) (p : piece) : text :=
  match p with
  | TLit c => [c]
  | TGroup n => group_text f n
  end.

Definition expand (ps : list piece) (f : found) : text :=
  ps ≫= expand_piece f.

(** *** Substitution (pattern_subx) and iteration over the matches *)

Fixpoint sub_loop (fuel : nat) (re : regex) (ps : list piece)
    (must_advance : bool) (prev : option char) (rest : text) : text :=
  match fuel with
  | 0 => rest
  | S fuel' =>
      match search re must_advance prev rest with
      | None => rest
      | Some f =>
          skipped f ++ expand ps f
          ++ sub_loop fuel' re ps (bool_decide (matched f = []))
                      (m_prev (resume f)) (m_rest (resume f))
      end
  end.

Fixpoint finditer_loop (fuel : nat) (re : regex) (pos : nat)
    (must_advance : bool) (prev : option char) (rest : text) : list (nat * nat) :=
  match fuel with
  | 0 => []
  | S fuel' =>
      match search re must_advance prev rest with
      | None => []
      | Some f =>
          let b := pos + length (skipped f) in
          let e := b + length (matched f) in
          (b, e) :: finditer_loop fuel' re e (bool_decide (matched f = []))
                                  (m_prev (resume f)) (m_rest (resume f))
      end
  end.

Definition scan_fuel (s : text) : nat := 2 * length s + 2.

(** The spans [(start, end)] of all matches, as [re.finditer] yields them. *)
Definition finditer (re : regex) (s : text) : list (nat * nat) :=
  finditer_loop (scan_fuel s) re 0 false None s.

(** The same scan, with the text that the template stands for at each
    match: the edits that [re.sub] makes. *)
Fixpoint edits_loop (fuel : nat) (re : regex) (ps : list piece) (pos : nat)
    (must_advance : bool) (prev : option char) (rest : text)
  : list (nat * nat * list N) :=
  match fuel with
  | 0 => []
  | S fuel' =>
      match search re must_advance prev rest with
      | None => []
      | Some f =>
          let b := pos + length (skipped f) in
          let e := b + length (matched f) in
          (b, e, expand ps f)
          :: edits_loop fuel' re ps e (bool_decide (matched f = []))
                        (m_prev (resume f)) (m_rest (resume f))
      end
  end.

Definition edits (re : regex) (ps : list piece) (s : text) : list (nat * nat * list N) :=
  edits_loop (scan_fuel s) re ps 0 false None s.

Inductive exn := FileNotFoundError | ReError.

Inductive outcome (A : Type) : Type :=
| Done (a : A)
| Raise (e : exn)
| Unmodelled.
Arguments Done {A} a.
Arguments Raise {A} e.
Arguments Unmodelled {A}.

(** [re.sub(pattern, repl, string, flags=re.MULTILINE)]: the pattern is
    compiled, then the template, then the string is scanned. *)
Definition re_sub (pattern repl s : text) : outcome (list N) :=
  match compile pattern with
  | PError => Raise ReError
  | PUnsupported => Unmodelled
  | POk re groups =>
      match compile_template groups repl with
      | TError => Raise ReError
      | TUnsupported => Unmodelled
      | TOk ps => Done (sub_loop (scan_fuel s) re ps false None s)
      end
  end.

(** ** Files, the console and the program monad

    A program runs from a file system (path to stored text) and yields an
    outcome, the file system it leaves, and the I/O calls it made, in
    order. An exception ends the program where it is raised. *)

Inductive mode := ReadMode | WriteMode.

Inductive event :=
| EvOpen (path : string) (m : mode)
| EvPrint (line : list N).

Definition prog (A : Type) : Type :=
  gmap string (list N) -> outcome A * gmap string (list N) * list event.

Definition ret {A} (a : A) : prog A := fun fs => (Done a, fs, []).

Definition bind {A B} (m : prog A) (k : A -> prog B) : prog B :=
  fun fs =>
    match m fs with
    | (Done a, fs1, ev1) =>
        let '(o, fs2, ev2) := k a fs1 in (o, fs2, ev1 ++ ev2)
    | (Raise e, fs1, ev1) => (Raise e, fs1, ev1)
    | (Unmodelled, fs1, ev1) => (Unmodelled, fs1, ev1)
    end.

Declare Scope prog_scope.
Delimit Scope prog_scope with prog.
Notation "x <- m ;; k" := (bind m (fun x => k))
  (at level 100, m at next level, right associativity) : prog_scope.
Notation "m ;;; k" := (bind m (fun _ => k))
  (at level 100, right associativity) : prog_scope.

(** A pure computation that may raise. *)
Definition lift {A} (o : outcome A) : prog A := fun fs => (o, fs, []).

(** Reading in text mode. The script opens the file with [open(path, 'r')]
    and leaves [newline] at its default [None]: universal newlines, every
    line end CR LF and every lone CR of the file reaches the caller as one
    LF. *)
Fixpoint universal_newlines (s : list N) : list N :=
  match s with
  | [] => []
  | c :: t =>
      if (c =? CR)%N then
        LF :: universal_newlines
                match t with
                | d :: t' => if (d =? LF)%N then t' else t
                | [] => t
                end
      else c :: universal_newlines t
  end.

(** [with open(path, 'r') as f: content = f.read()] *)
Definition read_text (path : string) : prog (list N) :=
  fun fs =>
    match fs !! path with
    | None => (Raise FileNotFoundError, fs, [EvOpen path ReadMode])
    | Some stored => (Done (universal_newlines stored), fs, [EvOpen path ReadMode])
    end.

(** [open(path, 'w')]: the file is created or truncated. *)
Definition open_write (path : string) : prog unit :=
  fun fs => (Done tt, <[path := []]> fs, [EvOpen path WriteMode]).

(** [f.write(content)]. The path of the script is a POSIX path; there
    the line separator is LF and text mode writes every character as it
    is, a CR included. *)
Definition write (path : string) (content : list N) : prog unit :=
  fun fs => (Done tt, <[path := content]> fs, []).

(** [print(line)] *)
Definition print (line : list N) : prog unit :=
  fun fs => (Done tt, fs, [EvPrint line]).

(** ** The script *)

Definition success_message : list N := txt "Updated TUI models successfully".

Open Scope prog_scope.

(** The body of the script, with its three constants as parameters. *)
Definition rewrite (path : string) (matcher replacement : list N) : prog unit :=
  content <- read_text path ;;
  content' <- lift (re_sub matcher replacement content) ;;
  open_write path ;;;
  write path content' ;;;
  print success_message.

Close Scope prog_scope.

(** The constants of the script are written line by line: [tabs n] is the
    indentation, [lines] joins with LF, and a double quote or the arrow
    is given by name. *)
Definition tabs (n : nat) : list N := replicate n TAB.

Fixpoint lines (ls : list (list N)) : list N :=
  match ls with
  | [] => []
  | [l] => l
  | l :: ls' => l ++ LF :: lines ls'
  end.

Definition tui_models_go : string :=
  "/workspace/pkg/plugins/task_manager/tui_models.go".

(** [old_pattern] is a raw literal: its backslashes are characters of the
    pattern. *)
Definition old_pattern : list N := lines [
  tabs 2 ++ txt "for idx, task := range m\.backlogTasks \{";
  tabs 3 ++ txt "var taskLine string";
  tabs 3 ++ txt "if m\.selectedItemType == SelectBacklog && idx == m\.selectedBacklogIdx \{";
  tabs 4 ++ txt "taskLine = fmt\.Sprintf\(" ++ [DQUOTE; ARROW] ++ txt " %s %s" ++ [DQUOTE] ++ txt ", task\.ID, task\.Title\)";
  tabs 4 ++ txt "s \+= selectedTrackStyle\.Render\(taskLine\) \+ " ++ [DQUOTE] ++ txt "\\n" ++ [DQUOTE];
  tabs 3 ++ txt "\} else \{";
  tabs 4 ++ txt "taskLine = fmt\.Sprintf\(" ++ [DQUOTE] ++ txt "  %s %s" ++ [DQUOTE] ++ txt ", task\.ID, task\.Title\)";
  tabs 4 ++ txt "s \+= trackItemStyle\.Render\(taskLine\) \+ " ++ [DQUOTE] ++ txt "\\n" ++ [DQUOTE];
  tabs 3 ++ txt "\}";
  tabs 2 ++ txt "\}"
].

(** [new_replacement] is not a raw literal: where the source spells two
    backslashes and [n], the string holds one backslash and [n]. *)
Definition new_replacement : list N := lines [
  tabs 2 ++ txt "for idx, task := range m.backlogTasks {";
  tabs 3 ++ txt "// Get track information for display";
  tabs 3 ++ txt "trackInfo := " ++ [DQUOTE; DQUOTE];
  tabs 3 ++ txt "if task.TrackID != " ++ [DQUOTE; DQUOTE] ++ txt " {";
  tabs 4 ++ txt "track, err := m.repository.GetTrack(m.ctx, task.TrackID)";
  tabs 4 ++ txt "if err == nil && track != nil {";
  tabs 5 ++ txt "trackInfo = fmt.Sprintf(" ++ [DQUOTE] ++ txt " [%s]" ++ [DQUOTE] ++ txt ", track.ID)";
  tabs 4 ++ txt "}";
  tabs 3 ++ txt "}";
  [];
  tabs 3 ++ txt "var taskLine string";
  tabs 3 ++ txt "if m.selectedItemType == SelectBacklog && idx == m.selectedBacklogIdx {";
  tabs 4 ++ txt "taskLine = fmt.Sprintf(" ++ [DQUOTE; ARROW] ++ txt " %s %s%s" ++ [DQUOTE] ++ txt ", task.ID, task.Title, trackInfo)";
  tabs 4 ++ txt "s += selectedTrackStyle.Render(taskLine) + " ++ [DQUOTE] ++ txt "\n" ++ [DQUOTE];
  tabs 3 ++ txt "} else {";
  tabs 4 ++ txt "taskLine = fmt.Sprintf(" ++ [DQUOTE] ++ txt "  %s %s%s" ++ [DQUOTE] ++ txt ", task.ID, task.Title, trackInfo)";
  tabs 4 ++ txt "s += trackItemStyle.Render(taskLine) + " ++ [DQUOTE] ++ txt "\n" ++ [DQUOTE];
  tabs 3 ++ txt "}";
  tabs 2 ++ txt "}"
].

(** The script as it stands. *)
Definition main : prog unit := rewrite tui_models_go old_pattern new_replacement.

(** The Go text that [old_pattern] describes: the backlog loop of
    tui_models.go before the change. *)
Definition old_block : list N := lines [
  tabs 2 ++ txt "for idx, task := range m.backlogTasks {";
  tabs 3 ++ txt "var taskLine string";
  tabs 3 ++ txt "if m.selectedItemType == SelectBacklog && idx == m.selectedBacklogIdx {";
  tabs 4 ++ txt "taskLine = fmt.Sprintf(" ++ [DQUOTE; ARROW] ++ txt " %s %s" ++ [DQUOTE] ++ txt ", task.ID, task.Title)";
  tabs 4 ++ txt "s += selectedTrackStyle.Render(taskLine) + " ++ [DQUOTE] ++ txt "\n" ++ [DQUOTE];
  tabs 3 ++ txt "} else {";
  tabs 4 ++ txt "taskLine = fmt.Sprintf(" ++ [DQUOTE] ++ txt "  %s %s" ++ [DQUOTE] ++ txt ", task.ID, task.Title)";
  tabs 4 ++ txt "s += trackItemStyle.Render(taskLine) + " ++ [DQUOTE] ++ txt "\n" ++ [DQUOTE];
  tabs 3 ++ txt "}";
  tabs 2 ++ txt "}"
].

(** ** Definitions used to state the properties *)

(** [splice edits pos rest]: the text [rest], which starts at offset
    [pos] of the subject, with every span [(b, e)] of [edits] replaced by
    the text that goes with it, and the text outside the spans kept. *)
Fixpoint splice (edits : list (nat * nat * list N)) (pos : nat)
    (rest : list N) : list N :=
  match edits with
  | [] => rest
  | (b, e, inserted) :: edits' =>
      take (b - pos) rest ++ inserted ++ splice edits' e (drop (e - pos) rest)
  end.

(** The edits that put the one text [repl] in place of every span. *)
Definition replace_by (repl : list N) (spans : list (nat * nat))
  : list (nat * nat * list N) := (fun span => (span, repl)) <$> spans.

(** Spans in increasing order, not overlapping, between [pos] and [n]. *)
Fixpoint spans_within (pos n : nat) (spans : list (nat * nat)) : Prop :=
  match spans with
  | [] => pos <= n
  | (b, e) :: spans' => pos <= b /\ b <= e /\ spans_within e n spans'
  end.

(** The I/O calls of a run that succeeds. *)
Definition run_events (path : string) : list event :=
  [EvOpen path ReadMode; EvOpen path WriteMode; EvPrint success_message].

(** The character before the position reached after reading [t]. *)
Fixpoint last_char (prev : option N) (t : list N) : option N :=
  match t with
  | [] => prev
  | c :: t' => last_char (Some c) t'
  end.

(** What [re.sub] makes of [new_replacement]: the template is parsed, and
    the two backslash-n sequences become line breaks. *)
Definition new_block_written : list N := lines [
  tabs 2 ++ txt "for idx, task := range m.backlogTasks {";
  tabs 3 ++ txt "// Get track information for display";
  tabs 3 ++ txt "trackInfo := " ++ [DQUOTE; DQUOTE];
  tabs 3 ++ txt "if task.TrackID != " ++ [DQUOTE; DQUOTE] ++ txt " {";
  tabs 4 ++ txt "track, err := m.repository.GetTrack(m.ctx, task.TrackID)";
  tabs 4 ++ txt "if err == nil && track != nil {";
  tabs 5 ++ txt "trackInfo = fmt.Sprintf(" ++ [DQUOTE] ++ txt " [%s]" ++ [DQUOTE] ++ txt ", track.ID)";
  tabs 4 ++ txt "}";
  tabs 3 ++ txt "}";
  [];
  tabs 3 ++ txt "var taskLine string";
  tabs 3 ++ txt "if m.selectedItemType == SelectBacklog && idx == m.selectedBacklogIdx {";
  tabs 4 ++ txt "taskLine = fmt.Sprintf(" ++ [DQUOTE; ARROW] ++ txt " %s %s%s" ++ [DQUOTE] ++ txt ", task.ID, task.Title, trackInfo)";
  tabs 4 ++ txt "s += selectedTrackStyle.Render(taskLine) + " ++ [DQUOTE; LF; DQUOTE];
  tabs 3 ++ txt "} else {";
  tabs 4 ++ txt "taskLine = fmt.Sprintf(" ++ [DQUOTE] ++ txt "  %s %s%s" ++ [DQUOTE] ++ txt ", task.ID, task.Title, trackInfo)";
  tabs 4 ++ txt "s += trackItemStyle.Render(taskLine) + " ++ [DQUOTE; LF; DQUOTE];
  tabs 3 ++ txt "}";
  tabs 2 ++ txt "}"
].

(** A CRLF file of two lines, the second being [b]. *)
Definition crlf_file : list N := txt "a" ++ [CR; LF] ++ txt "b".

(** The backlog loop after a first line that ends in CRLF. *)
Definition crlf_sample : list N :=
  txt "func view() {" ++ [CR; LF] ++ old_block ++ [LF] ++ txt "}".

(** The backlog loop twice, with a CRLF line end in between. *)
Definition crlf_two_loops : list N := old_block ++ [CR; LF] ++ old_block.

(** The backlog loop inside a function body. *)
Definition sample_file : list N :=
  lines [txt "func view() {"; old_block; txt "}"].

(** The same file with one more space of indentation on the second line
    of the loop. *)
Definition drifted_file : list N := lines [
  txt "func view() {";
  tabs 2 ++ txt "for idx, task := range m.backlogTasks {";
  tabs 3 ++ txt " var taskLine string";
  tabs 3 ++ txt "if m.selectedItemType == SelectBacklog && idx == m.selectedBacklogIdx {";
  tabs 4 ++ txt "taskLine = fmt.Sprintf(" ++ [DQUOTE; ARROW] ++ txt " %s %s" ++ [DQUOTE] ++ txt ", task.ID, task.Title)";
  tabs 4 ++ txt "s += selectedTrackStyle.Render(taskLine) + " ++ [DQUOTE] ++ txt "\n" ++ [DQUOTE];
  tabs 3 ++ txt "} else {";
  tabs 4 ++ txt "taskLine = fmt.Sprintf(" ++ [DQUOTE] ++ txt "  %s %s" ++ [DQUOTE] ++ txt ", task.ID, task.Title)";
  tabs 4 ++ txt "s += trackItemStyle.Render(taskLine) + " ++ [DQUOTE] ++ txt "\n" ++ [DQUOTE];
  tabs 3 ++ txt "}";
  tabs 2 ++ txt "}";
  txt "}"
].

(** A file system that holds the target file and nothing else. *)
Definition only (content : list N) : gmap string (list N) :=
  {[ tui_models_go := content ]}.

(** The three components of a run. *)
Definition files_after {A} (r : outcome A * gmap string (list N) * list event)
  : gmap string (list N) := r.1.2.
Definition outcome_of {A} (r : outcome A * gmap string (list N) * list event)
  : outcome A := r.1.1.
Definition events_of {A} (r : outcome A * gmap string (list N) * list event)
  : list event := r.2.

(** Closed decidable side conditions are settled by evaluation. *)
Ltac decide_by_computation := apply (bool_decide_unpack _); vm_compute; exact I.

(** The backlog loop three times in one file. *)
Definition three_loops : list N := lines [old_block; old_block; txt "}"; old_block].

(** [sample_file] after the script has run on it. *)
Definition sample_file_rewritten : list N :=
  lines [txt "func view() {"; new_block_written; txt "}"].

(** [re.finditer(pattern, s, re.MULTILINE)], as spans. *)
Definition re_finditer (pattern s : list N) : outcome (list (nat * nat)) :=
  match compile pattern with
  | POk re _ => Done (finditer re s)
  | PError => Raise ReError
  | PUnsupported => Unmodelled
  end.

(** The characters that the pattern parser does not take literally. *)
Definition is_special (c : N) : bool :=
  (c =? BACKSLASH)%N || is_ch "(" c || is_ch ")" c || is_ch "|" c
  || is_ch "*" c || is_ch "+" c || is_ch "?" c || is_ch "." c
  || is_ch "^" c || is_ch "$" c || is_ch "[" c || is_ch "{" c.

(** An upper bound on the iterations the scan still makes. *)
Definition scan_need (must_advance : bool) (rest : list N) : nat :=
  2 * length rest + (if must_advance then 1 else 2).

(** [starts_with p t]: the text [t] begins with [p]. *)
Fixpoint starts_with (p t : list N) : bool :=
  match p, t with
  | [], _ => true
  | _ :: _, [] => false
  | x :: p', y :: t' => (x =? y)%N && starts_with p' t'
  end.

(** [p] occurs somewhere in [t]. *)
Definition occurs_in (p t : list N) : bool :=
  existsb (fun q => starts_with p (drop q t)) (seq 0 (S (length t))).

(** [clear_of old new]: putting [new] into a text cannot bring about an
    occurrence of [old]. [old] does not occur in [new], no proper end of
    [old] begins [new], no proper beginning of [old] ends [new], and [old]
    is not empty and not longer than [new]. *)
Definition clear_of (old new : list N) : bool :=
  negb (occurs_in old new)
  && forallb (fun k => negb (starts_with (drop k old) new)
                       && negb (starts_with (reverse (take k old)) (reverse new)))
             (seq 1 (length old - 1))
  && (0 <? length old) && (length old <=? length new).

(** A regex without the wildcard and without the anchors. *)
Fixpoint line_blind (r : regex) : bool :=
  match r with
  | Empty | Lit _ => true
  | AnyChar | Bol | Eol => false
  | Cat r1 r2 | Alt r1 r2 => line_blind r1 && line_blind r2
  | Rep _ _ r1 | Group _ r1 => line_blind r1
  end.

(** The regex with every character it names renamed by [f]. *)
Fixpoint rename_re (f : N -> N) (r : regex) : regex :=
  match r with
  | Lit c => Lit (f c)
  | Cat r1 r2 => Cat (rename_re f r1) (rename_re f r2)
  | Alt r1 r2 => Alt (rename_re f r1) (rename_re f r2)
  | Rep min max r1 => Rep min max (rename_re f r1)
  | Group n r1 => Group n (rename_re f r1)
  | Empty | AnyChar | Bol | Eol => r
  end.

(** [swap a b]: the characters [a] and [b] exchanged, every other one
    kept. *)
Definition swap (a b x : N) : N :=
  if (x =? a)%N then b else if (x =? b)%N then a else x.

Definition rename_caps (f : N -> N) (caps : list (nat * list N)) : list (nat * list N) :=
  (fun g : nat * list N => (g.1, f <$> g.2)) <$> caps.

Definition rename_st (f : N -> N) (st : mstate) : mstate :=
  MState (f <$> m_prev st) (f <$> m_rest st) (rename_caps f (m_caps st)).

Definition rename_found (f : N -> N) (fd : found) : found :=
  Found (f <$> skipped fd) (f <$> matched fd) (rename_caps f (groups_of fd))
        (rename_st f (resume fd)).

(** The matcher matches at offset [p] of the text [s]: the engine, tried
    there, finds a match. *)
Definition matches_at (r : regex) (s : list N) (p : nat) : Prop :=
  is_Some (match_here r false (last_char None (take p s)) (drop p s)).

(** [reaches st st']: the engine gets from [st] to [st'] by reading some
    text [k], and [st'] knows the last character read. *)
Definition reaches (st st' : mstate) : Prop :=
  exists k, m_rest st = k ++ m_rest st' /\ m_prev st' = last_char (m_prev st) k.

(** * Properties *)

(** ** The engine against CPython

    Each line below is an evaluation of the model; the right-hand side is
    what CPython 3.11 returns for the same call with [flags=re.MULTILINE]. *)

Example cpython_empty_matches :
  re_sub (txt "x*") (txt "-") (txt "abxd") = Done (txt "-a-b--d-").
Proof. reflexivity. Qed.

Example cpython_empty_then_nonempty :
  re_sub (txt "^(|a)") (txt "X") (txt "a") = Done (txt "XX").
Proof. reflexivity. Qed.

Example cpython_alternation :
  re_sub (txt "a||b") (txt "X") (txt "aab") = Done (txt "XXXXX").
Proof. reflexivity. Qed.

Example cpython_backtracking :
  re_sub (txt "(a+)+b") (txt "X") (txt "aab-ab-a") = Done (txt "X-X-a").
Proof. reflexivity. Qed.

Example cpython_optional_group :
  re_sub (txt "(a?)+") (txt "[\1]") (txt "b") = Done (txt "[]b[]").
Proof. reflexivity. Qed.

Example cpython_last_iteration_captured :
  re_sub (txt "((a)|b)+") (txt "<\1|\2>") (txt "ba") = Done (txt "<a|a>").
Proof. reflexivity. Qed.

Example cpython_unmatched_group_is_empty :
  re_sub (txt "(a)|b") (txt "[\1]") (txt "ab") = Done (txt "[a][]").
Proof. reflexivity. Qed.

Example cpython_anchors :
  re_sub (txt "^$") (txt "X") (txt "ab" ++ [LF; LF] ++ txt "cd")
  = Done (txt "ab" ++ [LF] ++ txt "X" ++ [LF] ++ txt "cd").
Proof. reflexivity. Qed.

Example cpython_invalid_patterns :
  compile (txt "(") = PError /\ compile (txt ")") = PError /\
  compile (txt "*") = PError /\ compile (txt "a**") = PError /\
  compile (txt "a+*") = PError /\ compile (txt "^*") = PError /\
  compile (txt "a|*") = PError /\ compile (txt "\q") = PError /\
  compile (BACKSLASH :: []) = PError /\ compile (txt "(?") = PError /\
  compile (txt "(a") = PError /\ compile (txt "a)") = PError.
Proof. repeat split; reflexivity. Qed.

Example cpython_template_escapes :
  re_sub (txt "a") (txt "\&\.") (txt "a") = Done (txt "\&\.") /\
  re_sub (txt "a") (txt "\t\\") (txt "a") = Done [TAB; BACKSLASH] /\
  re_sub (txt "(a)") (txt "\2") (txt "a") = Raise ReError /\
  re_sub (txt "a") (txt "\1") (txt "b") = Raise ReError /\
  re_sub (txt "a") (BACKSLASH :: []) (txt "a") = Raise ReError.
Proof. repeat split; reflexivity. Qed.

(** ** The engine only moves forward *)

Lemma consumed_app (st st' : mstate) (k : list N) :
  m_rest st = k ++ m_rest st' -> consumed st st' = k.
Proof.
  intros E. unfold consumed. rewrite E, length_app.
  replace (length k + length (m_rest st') - length (m_rest st')) with (length k) by lia.
  apply take_app_length.
Qed.

Lemma step_char_suffix (p : N -> bool) (st st' : mstate) :
  st' ∈ step_char p st -> m_rest st' `suffix_of` m_rest st.
Proof.
  unfold step_char. destruct (m_rest st) as [|c t] eqn:E.
  - intros H. by apply elem_of_nil in H.
  - destruct (p c).
    + intros ->%list_elem_of_singleton. simpl. by apply suffix_cons_r.
    + intros H. by apply elem_of_nil in H.
Qed.

Section RepLoop.
Variable body : mstate -> list mstate.
Hypothesis body_suffix :
  forall st st', st' ∈ body st -> m_rest st' `suffix_of` m_rest st.

Lemma rep_loop_suffix (min : nat) (max : option nat) (fuel : nat) :
  forall count last st st',
    st' ∈ rep_loop body min max fuel count last st ->
    m_rest st' `suffix_of` m_rest st.
Proof using body_suffix.
  induction fuel as [|fuel IH]; intros count last st st'; simpl.
  - intros H. by apply elem_of_nil in H.
  - destruct (count <? min).
    + intros (mid & Hin & Hmid)%list_elem_of_bind.
      etrans; [by eapply IH | by apply body_suffix].
    + intros [Hmore | ->%list_elem_of_singleton]%elem_of_app; [|done].
      destruct (below count max && _); [|by apply elem_of_nil in Hmore].
      apply list_elem_of_bind in Hmore as (mid & Hin & Hmid).
      etrans; [by eapply IH | by apply body_suffix].
Qed.
End RepLoop.

Lemma run_re_suffix (r : regex) :
  forall st st', st' ∈ run_re r st -> m_rest st' `suffix_of` m_rest st.
Proof.
  induction r as [|c| | | |r1 IH1 r2 IH2|r1 IH1 r2 IH2|min max r IH|n r IH];
    intros st st'; simpl.
  - by intros ->%list_elem_of_singleton.
  - apply step_char_suffix.
  - apply step_char_suffix.
  - destruct (at_bol st); [by intros ->%list_elem_of_singleton|].
    intros H. by apply elem_of_nil in H.
  - destruct (at_eol st); [by intros ->%list_elem_of_singleton|].
    intros H. by apply elem_of_nil in H.
  - intros (mid & Hin & Hmid)%list_elem_of_bind.
    etrans; [by apply IH2 | by apply IH1].
  - intros [H | H]%elem_of_app; auto.
  - by apply rep_loop_suffix.
  - intros (mid & -> & Hmid)%list_elem_of_fmap. simpl. by apply IH.
Qed.

(** A match is a piece of the text at the position where it is tried, and
    the scan resumes right behind it. *)
Lemma match_here_split re must_advance prev rest f :
  match_here re must_advance prev rest = Some f ->
  skipped f = [] /\ rest = matched f ++ m_rest (resume f) /\
  (must_advance = true -> matched f <> []).
Proof.
  unfold match_here. intros (st' & Hfind & ->)%fmap_Some. simpl.
  apply find_some in Hfind as [Hin Hacc].
  apply list_elem_of_In, run_re_suffix in Hin as [k Hk]. simpl in Hk.
  rewrite (consumed_app (MState prev rest []) st' k Hk).
  split; [done|]. split; [done|].
  intros ->. simpl in Hacc. apply Nat.ltb_lt in Hacc.
  intros ->. simpl in Hk. subst rest. lia.
Qed.

Lemma search_split re : forall rest must_advance prev f,
  search re must_advance prev rest = Some f ->
  rest = skipped f ++ matched f ++ m_rest (resume f).
Proof.
  induction rest as [|c rest IH]; intros must_advance prev f; simpl.
  - destruct (match_here re must_advance prev []) as [f'|] eqn:E; [|done].
    intros [= <-]. apply match_here_split in E as (-> & E & _). done.
  - destruct (match_here re must_advance prev (c :: rest)) as [f'|] eqn:E.
    + intros [= <-]. apply match_here_split in E as (-> & E & _). done.
    + intros (f' & Hs & ->)%fmap_Some. simpl. f_equal. by eapply IH.
Qed.

(** ** Substitution against the list of matches *)

Lemma spans_within_bounds spans : forall pos n b e,
  spans_within pos n spans -> (b, e) ∈ spans -> pos <= b /\ b <= e /\ e <= n.
Proof.
  induction spans as [|[b' e'] spans IH]; intros pos n b e; simpl.
  - intros _ H. by apply elem_of_nil in H.
  - intros (Hb & He & Hw) [[= -> ->] | Hin]%elem_of_cons.
    + split; [done|]. split; [done|].
      clear -Hw. revert e' Hw. induction spans as [|[b e] spans IH]; simpl; intros q.
      * done.
      * intros (? & ? & Hw). apply IH in Hw. lia.
    + destruct (IH _ _ _ _ Hw Hin) as (? & ? & ?). lia.
Qed.

Lemma expand_literal (repl : list N) (f : found) : expand (TLit <$> repl) f = repl.
Proof.
  unfold expand. induction repl as [|c repl IH]; [done|].
  rewrite fmap_cons, bind_cons. by rewrite IH.
Qed.

Lemma sub_loop_splice re ps : forall fuel pos must_advance prev rest,
  sub_loop fuel re ps must_advance prev rest
  = splice (edits_loop fuel re ps pos must_advance prev rest) pos rest.
Proof.
  induction fuel as [|fuel IH]; intros pos must_advance prev rest; simpl; [done|].
  destruct (search re must_advance prev rest) as [f|] eqn:Hs; [|done].
  simpl. pose proof (search_split _ _ _ _ _ Hs) as Hrest.
  assert (take (pos + length (skipped f) - pos) rest = skipped f) as ->.
  { rewrite Hrest at 1. apply take_app_length'. lia. }
  assert (drop (pos + length (skipped f) + length (matched f) - pos) rest
          = m_rest (resume f)) as ->.
  { rewrite Hrest at 1. rewrite (assoc (++)). apply drop_app_length'.
    rewrite length_app. lia. }
  by rewrite <- IH.
Qed.

Lemma edits_loop_spans re ps : forall fuel pos must_advance prev rest,
  fst <$> edits_loop fuel re ps pos must_advance prev rest
  = finditer_loop fuel re pos must_advance prev rest.
Proof.
  induction fuel as [|fuel IH]; intros pos must_advance prev rest; simpl; [done|].
  destruct (search re must_advance prev rest) as [f|]; [|done].
  rewrite fmap_cons. simpl. by rewrite IH.
Qed.

Lemma edits_loop_literal re repl : forall fuel pos must_advance prev rest,
  edits_loop fuel re (TLit <$> repl) pos must_advance prev rest
  = replace_by repl (finditer_loop fuel re pos must_advance prev rest).
Proof.
  induction fuel as [|fuel IH]; intros pos must_advance prev rest; simpl; [done|].
  destruct (search re must_advance prev rest) as [f|]; [|done].
  unfold replace_by. rewrite fmap_cons, expand_literal. f_equal. apply IH.
Qed.

Lemma finditer_loop_within re : forall fuel pos must_advance prev rest,
  spans_within pos (pos + length rest)
               (finditer_loop fuel re pos must_advance prev rest).
Proof.
  induction fuel as [|fuel IH]; intros pos must_advance prev rest; simpl; [lia|].
  destruct (search re must_advance prev rest) as [f|] eqn:Hs; [|simpl; lia].
  simpl. pose proof (search_split _ _ _ _ _ Hs) as Hrest.
  split; [lia|]. split; [lia|].
  assert (length rest
          = length (skipped f) + length (matched f) + length (m_rest (resume f)))
    as Hlen by (rewrite Hrest at 1; rewrite !length_app; lia).
  replace (pos + length rest)
    with (pos + length (skipped f) + length (matched f) + length (m_rest (resume f)))
    by lia.
  apply IH.
Qed.

(** ** Text mode *)

Lemma universal_newlines_id (s : list N) : CR ∉ s -> universal_newlines s = s.
Proof.
  induction s as [|c t IH]; [done|].
  intros Hnot. simpl. destruct (c =? CR)%N eqn:E.
  - apply N.eqb_eq in E. subst c. exfalso. apply Hnot. by left.
  - f_equal. apply IH. intros Hin. apply Hnot. by right.
Qed.

(** ** One run of the script, case by case *)

Lemma rewrite_unfold path matcher replacement (fs : gmap string (list N)) :
  rewrite path matcher replacement fs =
  match fs !! path with
  | None => (Raise FileNotFoundError, fs, [EvOpen path ReadMode])
  | Some stored =>
      match re_sub matcher replacement (universal_newlines stored) with
      | Done content' => (Done tt, <[path := content']> fs, run_events path)
      | Raise e => (Raise e, fs, [EvOpen path ReadMode])
      | Unmodelled => (Unmodelled, fs, [EvOpen path ReadMode])
      end
  end.
Proof.
  unfold rewrite, bind, read_text, lift, open_write, write, print.
  destruct (fs !! path) as [stored|]; [|done].
  destruct (re_sub matcher replacement (universal_newlines stored)); [|done..].
  by rewrite insert_insert_eq.
Qed.

Lemma compile_template_literal groups (repl : list N) :
  BACKSLASH ∉ repl -> compile_template groups repl = TOk (TLit <$> repl).
Proof. intros H. unfold compile_template. by rewrite bool_decide_eq_false_2. Qed.

Lemma re_sub_edits matcher replacement re groups ps (s : list N) :
  compile matcher = POk re groups ->
  compile_template groups replacement = TOk ps ->
  re_sub matcher replacement s = Done (splice (edits re ps s) 0 s) /\
  fst <$> edits re ps s = finditer re s /\
  (BACKSLASH ∉ replacement -> edits re ps s = replace_by replacement (finditer re s)).
Proof.
  intros Hc Ht. unfold re_sub, edits, finditer. rewrite Hc, Ht.
  split; [by rewrite (sub_loop_splice re ps (scan_fuel s) 0)|].
  split; [apply edits_loop_spans|].
  intros Hr. rewrite compile_template_literal in Ht by done.
  injection Ht as <-. apply edits_loop_literal.
Qed.

(** ** Matchers that spell a text out

    The script's pattern escapes every special character: it denotes one
    text, line breaks included. For such a matcher the engine compares
    character by character, and a match is an occurrence of the text. *)

Lemma literal_re_cons c (lit : list N) :
  literal_re (c :: lit) = Cat (Lit c) (literal_re lit).
Proof. reflexivity. Qed.

Lemma run_literal_hit (lit : list N) : forall st k,
  m_rest st = lit ++ k ->
  run_re (literal_re lit) st = [MState (last_char (m_prev st) lit) k (m_caps st)].
Proof.
  induction lit as [|c lit IH]; intros [prev rest caps] k E;
    cbn [m_rest m_prev m_caps] in *; subst rest.
  - done.
  - rewrite literal_re_cons. cbn [run_re last_char]. unfold step_char.
    cbn [m_rest m_caps app]. rewrite N.eqb_refl, bind_cons. cbn [mbind list_bind]. rewrite app_nil_r.
    by apply IH.
Qed.

Lemma run_literal_miss (lit : list N) : forall st,
  ~ lit `prefix_of` m_rest st -> run_re (literal_re lit) st = [].
Proof.
  induction lit as [|c lit IH]; intros [prev rest caps] Hno;
    cbn [m_rest m_prev m_caps] in *.
  - exfalso. apply Hno. apply prefix_nil.
  - rewrite literal_re_cons. cbn [run_re]. unfold step_char. cbn [m_rest m_caps].
    destruct rest as [|x rest]; [done|].
    destruct (c =? x)%N eqn:E; [|done].
    apply N.eqb_eq in E. subst x. rewrite bind_cons. cbn [mbind list_bind]. rewrite app_nil_r.
    apply IH. cbn [m_rest]. intros Hp. apply Hno. by apply prefix_cons.
Qed.

Lemma match_here_literal_hit (lit : list N) must_advance prev k :
  lit <> [] ->
  match_here (literal_re lit) must_advance prev (lit ++ k)
  = Some (Found [] lit [] (MState (last_char prev lit) k [])).
Proof.
  intros Hne. unfold match_here.
  rewrite (run_literal_hit lit _ k) by done. simpl.
  assert ((length k <? length (lit ++ k)) = true) as ->.
  { apply Nat.ltb_lt. rewrite length_app. destruct lit; [done|]. simpl. lia. }
  rewrite orb_true_r. simpl. f_equal. f_equal.
  by apply consumed_app.
Qed.

Lemma match_here_literal_miss (lit : list N) must_advance prev rest :
  ~ lit `prefix_of` rest ->
  match_here (literal_re lit) must_advance prev rest = None.
Proof. intros Hno. unfold match_here. by rewrite run_literal_miss. Qed.

Lemma search_literal_none (lit : list N) : forall rest must_advance prev,
  lit <> [] ->
  search (literal_re lit) must_advance prev rest = None ->
  forall p, ~ lit `prefix_of` drop p rest.
Proof.
  induction rest as [|c rest IH]; intros must_advance prev Hne; simpl.
  - intros _ p. rewrite drop_nil. intros Hp%prefix_nil_inv. done.
  - destruct (match_here _ _ _ (c :: rest)) as [f|] eqn:E; [done|].
    intros Hs%fmap_None [|p].
    + intros [k Hk]. simpl in Hk. rewrite Hk, match_here_literal_hit in E; done.
    + simpl. by eapply IH.
Qed.

Lemma search_literal_some (lit : list N) : forall rest must_advance prev f,
  lit <> [] ->
  search (literal_re lit) must_advance prev rest = Some f ->
  matched f = lit /\
  forall p, p < length (skipped f) -> ~ lit `prefix_of` drop p rest.
Proof.
  assert (forall must_advance prev rest f,
    lit <> [] -> match_here (literal_re lit) must_advance prev rest = Some f ->
    matched f = lit /\ skipped f = []) as Hhere.
  { intros must_advance prev rest f Hne E.
    destruct (decide (lit `prefix_of` rest)) as [[k ->]|Hno].
    - rewrite match_here_literal_hit in E by done. by injection E as <-.
    - by rewrite match_here_literal_miss in E. }
  induction rest as [|c rest IH]; intros must_advance prev f Hne; simpl.
  - destruct (match_here _ _ _ []) as [f'|] eqn:E; [|done].
    intros [= <-]. apply Hhere in E as [-> ->]; [|done].
    split; [done|]. simpl. lia.
  - destruct (match_here _ _ _ (c :: rest)) as [f'|] eqn:E.
    + intros [= <-]. apply Hhere in E as [-> ->]; [|done].
      split; [done|]. simpl. lia.
    + intros (f' & Hs & ->)%fmap_Some. simpl.
      destruct (IH _ _ _ Hne Hs) as [Hm Hgap]. split; [done|].
      intros [|p] Hp.
      * intros [k Hk]. simpl in Hk. rewrite Hk, match_here_literal_hit in E; done.
      * simpl. apply Hgap. lia.
Qed.

Lemma finditer_literal_text (lit : list N) : forall fuel pos must_advance prev rest b e,
  lit <> [] ->
  (b, e) ∈ finditer_loop fuel (literal_re lit) pos must_advance prev rest ->
  take (e - b) (drop (b - pos) rest) = lit.
Proof.
  induction fuel as [|fuel IH]; intros pos must_advance prev rest b e Hne; simpl.
  - intros H. by apply elem_of_nil in H.
  - destruct (search _ must_advance prev rest) as [f|] eqn:Hs;
      [|intros H; by apply elem_of_nil in H].
    pose proof (search_split _ _ _ _ _ Hs) as Hrest.
    destruct (search_literal_some _ _ _ _ _ Hne Hs) as [Hm _].
    simpl. intros [[= -> ->] | Hin]%elem_of_cons.
    + replace (pos + length (skipped f) - pos) with (length (skipped f)) by lia.
      replace (pos + length (skipped f) + length (matched f)
               - (pos + length (skipped f))) with (length (matched f)) by lia.
      rewrite Hrest, drop_app_length, take_app_length. done.
    + pose proof (finditer_loop_within (literal_re lit) fuel
                    (pos + length (skipped f) + length (matched f))
                    (bool_decide (matched f = []))
                    (m_prev (resume f)) (m_rest (resume f))) as Hw.
      destruct (spans_within_bounds _ _ _ _ _ Hw Hin) as (Hle & _ & _).
      apply IH in Hin; [|done]. rewrite <- Hin. f_equal.
      rewrite Hrest at 1. rewrite (assoc (++)).
      replace (b - pos) with (length (skipped f ++ matched f)
        + (b - (pos + length (skipped f) + length (matched f))))
        by (rewrite length_app; lia).
      by rewrite drop_app_add.
Qed.

Lemma finditer_literal_covers (lit : list N) : forall fuel pos must_advance prev rest p,
  lit <> [] -> length rest < fuel ->
  lit `prefix_of` drop p rest ->
  exists b e, (b, e) ∈ finditer_loop fuel (literal_re lit) pos must_advance prev rest
              /\ b <= pos + p < e.
Proof.
  induction fuel as [|fuel IH]; intros pos must_advance prev rest p Hne Hfuel Hocc;
    [lia|]. simpl.
  destruct (search _ must_advance prev rest) as [f|] eqn:Hs.
  - pose proof (search_split _ _ _ _ _ Hs) as Hrest.
    destruct (search_literal_some _ _ _ _ _ Hne Hs) as [Hm Hgap].
    assert (0 < length lit) as Hlen by (destruct lit; [done|simpl; lia]).
    assert (length rest
            = length (skipped f) + length lit + length (m_rest (resume f)))
      as Hlr by (rewrite Hrest at 1; rewrite !length_app, Hm; lia).
    destruct (decide (p < length (skipped f))) as [Hlt|Hge].
    { exfalso. by eapply Hgap. }
    destruct (decide (p < length (skipped f) + length lit)) as [Hin|Hout].
    + exists (pos + length (skipped f)),
             (pos + length (skipped f) + length (matched f)).
      split; [by left|]. rewrite Hm. lia.
    + destruct (IH (pos + length (skipped f) + length (matched f))
                   (bool_decide (matched f = []))
                   (m_prev (resume f)) (m_rest (resume f))
                   (p - (length (skipped f) + length lit)) Hne)
        as (b & e & Hbe & Hb & He).
      * lia.
      * replace (drop (p - (length (skipped f) + length lit)) (m_rest (resume f)))
          with (drop p rest); [done|].
        rewrite Hrest at 1. rewrite (assoc (++)).
        replace p with (length (skipped f ++ matched f)
                        + (p - (length (skipped f) + length lit))) at 1
          by (rewrite length_app, Hm; lia).
        by rewrite drop_app_add.
      * exists b, e. split; [by right|]. rewrite Hm in Hb, He. lia.
  - exfalso. by eapply search_literal_none.
Qed.

(** A matcher without special characters denotes itself. *)
Lemma parse_plain (p : list N) : forall seq,
  forallb (fun c => negb (is_special c)) p = true ->
  parse p (PState (Frame [] seq) [] 0)
  = POk (seq_re (rev (snd <$> seq) ++ (Lit <$> p))) 0.
Proof.
  induction p as [|c p IH]; intros seq Hp.
  - simpl. unfold finish, frame_re, branch_re. simpl. by rewrite app_nil_r.
  - simpl in Hp. apply andb_true_iff in Hp as [Hc Hp].
    apply negb_true_iff in Hc. unfold is_special in Hc.
    repeat (apply orb_false_iff in Hc as [Hc ?]).
    cbn [parse]. repeat match goal with H : _ = false |- _ => rewrite H end.
    cbn [orb]. unfold push_item. cbn [p_cur p_open p_groups f_alts f_seq].
    rewrite IH by done. do 2 f_equal.
    rewrite fmap_cons. cbn [snd rev]. by rewrite <- (assoc (++)).
Qed.

Lemma compile_plain (p : list N) :
  forallb (fun c => negb (is_special c)) p = true ->
  compile p = POk (literal_re p) 0.
Proof. intros Hp. unfold compile. by rewrite parse_plain. Qed.

(** ** The script's constants under the engine *)

(** Every special character of [old_pattern] is escaped: the pattern
    denotes the ten lines of [old_block], line breaks included. *)
Lemma old_pattern_compiles : compile old_pattern = POk (literal_re old_block) 0.
Proof. vm_compute. reflexivity. Qed.

Lemma new_replacement_template :
  compile_template 0 new_replacement = TOk (TLit <$> new_block_written).
Proof. vm_compute. reflexivity. Qed.

(** ** Concrete files used below *)

(** ** C1: a single occurrence *)

(** C1 as stated fails when the script runs on a file whose first line
    ends in CRLF: the matcher occurs exactly once, from offset 15 to
    offset 393, and whatever text is taken as inserted, the file written
    is not the text before the occurrence, that text, and the text after
    the occurrence: the carriage return before the occurrence is gone. *)
Lemma C1_counterexample :
  re_finditer old_pattern crlf_sample = Done [(15, 393)] /\
  files_after (main (only crlf_sample)) !! tui_models_go
  = Some sample_file_rewritten /\
  ~ exists inserted,
      sample_file_rewritten
      = take 15 crlf_sample ++ inserted ++ drop 393 crlf_sample.
Proof.
  split; [vm_compute; reflexivity|]. split; [vm_compute; reflexivity|].
  intros (inserted & H). vm_compute in H. discriminate H.
Qed.

(** C1, amended: for a file without carriage returns in which the matcher
    occurs exactly once, from offset [b] to offset [e], the run succeeds
    and the file then holds the text before [b], one inserted text, and
    the text from [e] on, in that order; the inserted text is the
    replacement itself when the replacement holds no backslash. No other
    file changes. *)
Theorem C1_single_occurrence_replaced
    path matcher replacement re groups ps (stored : list N) b e
    (fs : gmap string (list N)) :
  compile matcher = POk re groups ->
  compile_template groups replacement = TOk ps ->
  CR ∉ stored ->
  fs !! path = Some stored ->
  finditer re stored = [(b, e)] ->
  b <= e <= length stored /\
  exists inserted,
    rewrite path matcher replacement fs
    = (Done tt, <[path := take b stored ++ inserted ++ drop e stored]> fs,
       run_events path) /\
    (BACKSLASH ∉ replacement -> inserted = replacement).
Proof.
  intros Hc Ht Hcr Hfs Hone. split.
  - pose proof (finditer_loop_within re (scan_fuel stored) 0 false None stored) as Hw.
    fold (finditer re stored) in Hw. rewrite Hone in Hw. simpl in Hw. lia.
  - destruct (re_sub_edits _ replacement _ _ _ stored Hc Ht) as (Hsub & Hspans & Hlit).
    rewrite Hone in Hspans, Hlit.
    destruct (edits re ps stored) as [|[[b' e'] ins] [|ed eds]];
      simpl in Hspans; try discriminate.
    injection Hspans as -> ->. exists ins. split.
    + rewrite rewrite_unfold, Hfs, universal_newlines_id, Hsub by done.
      simpl. by rewrite !Nat.sub_0_r.
    + intros Hr. specialize (Hlit Hr). by injection Hlit as ->.
Qed.

(** The loop of [sample_file] replaced by a comment. *)
Lemma C1_single_occurrence_replaced_witness :
  finditer (literal_re old_block) sample_file = [(14, 392)] /\
  14 <= 392 <= length sample_file /\
  exists inserted,
    rewrite tui_models_go old_pattern (txt "// backlog") (only sample_file)
    = (Done tt,
       <[tui_models_go := take 14 sample_file ++ inserted ++ drop 392 sample_file]>
         (only sample_file),
       run_events tui_models_go) /\
    (BACKSLASH ∉ txt "// backlog" -> inserted = txt "// backlog").
Proof.
  split; [vm_compute; reflexivity|].
  apply (C1_single_occurrence_replaced tui_models_go old_pattern (txt "// backlog")
           (literal_re old_block) 0 (TLit <$> txt "// backlog")
           sample_file 14 392 (only sample_file)).
  - exact old_pattern_compiles.
  - vm_compute. reflexivity.
  - decide_by_computation.
  - reflexivity.
  - vm_compute. reflexivity.
Defined.

(** ** C2: the two outcomes of a run *)

(** C2 as stated fails when the script runs on a file that holds the loop
    twice with a CRLF line end in between: both occurrences are found,
    and the file written is neither the original nor the original with
    the two occurrences replaced, by whatever texts, and the rest kept:
    the text between the occurrences was a carriage return and a line
    feed, and the file written holds no carriage return. *)
Lemma C2_counterexample :
  re_finditer old_pattern crlf_two_loops = Done [(0, 378); (380, 758)] /\
  files_after (main (only crlf_two_loops)) !! tui_models_go
  = Some (new_block_written ++ [LF] ++ new_block_written) /\
  new_block_written ++ [LF] ++ new_block_written <> crlf_two_loops /\
  ~ exists eds,
      fst <$> eds = [(0, 378); (380, 758)] /\
      new_block_written ++ [LF] ++ new_block_written = splice eds 0 crlf_two_loops.
Proof.
  split; [vm_compute; reflexivity|]. split; [vm_compute; reflexivity|]. split.
  - intros H. apply (f_equal length) in H. vm_compute in H. discriminate.
  - intros (eds & Hspans & H).
    destruct eds as [|[[b1 e1] i1] [|[[b2 e2] i2] [|ed eds]]]; try discriminate.
    injection Hspans as -> -> -> ->.
    assert (CR ∈ splice [(0, 378, i1); (380, 758, i2)] 0 crlf_two_loops) as Hin.
    { cbn [splice]. apply elem_of_app. right. apply elem_of_app. right.
      apply elem_of_app. left.
      replace (take (380 - 378) (drop (378 - 0) crlf_two_loops)) with [CR; LF]
        by (vm_compute; reflexivity).
      by left. }
    rewrite <- H in Hin. revert Hin. decide_by_computation.
Qed.

(** C2, amended: for a file without carriage returns, a valid matcher and
    a replacement that is a well-formed template, the run succeeds with
    one of two outcomes: the matcher matches nowhere and the file system
    is as before, or the file holds the original with every match (the
    successive non-overlapping matches from left to right, N >= 2
    included) replaced by an inserted text and the text outside the
    matches kept; each inserted text is the replacement itself when the
    replacement holds no backslash. The matches lie in order inside the
    content. *)
Theorem C2_unchanged_or_all_replaced
    path matcher replacement re groups ps (stored : list N)
    (fs : gmap string (list N)) :
  compile matcher = POk re groups ->
  compile_template groups replacement = TOk ps ->
  CR ∉ stored ->
  fs !! path = Some stored ->
  spans_within 0 (length stored) (finditer re stored) /\
  ((finditer re stored = [] /\
    rewrite path matcher replacement fs = (Done tt, fs, run_events path))
   \/
   (finditer re stored <> [] /\
    exists eds,
      fst <$> eds = finditer re stored /\
      rewrite path matcher replacement fs
      = (Done tt, <[path := splice eds 0 stored]> fs, run_events path) /\
      (BACKSLASH ∉ replacement ->
       eds = replace_by replacement (finditer re stored)))).
Proof.
  intros Hc Ht Hcr Hfs. split.
  - apply (finditer_loop_within re (scan_fuel stored) 0 false None stored).
  - destruct (re_sub_edits _ replacement _ _ _ stored Hc Ht) as (Hsub & Hspans & Hlit).
    rewrite rewrite_unfold, Hfs, universal_newlines_id, Hsub by done.
    destruct (finditer re stored) as [|span spans] eqn:E.
    + left. split; [done|]. apply fmap_nil_inv in Hspans. rewrite Hspans.
      simpl. by rewrite insert_id.
    + right. split; [done|]. by exists (edits re ps stored).
Qed.

(** Three loops in one file, each replaced by a comment. *)
Lemma C2_unchanged_or_all_replaced_witness :
  finditer (literal_re old_block) three_loops = [(0, 378); (379, 757); (760, 1138)] /\
  spans_within 0 (length three_loops) (finditer (literal_re old_block) three_loops) /\
  ((finditer (literal_re old_block) three_loops = [] /\
    rewrite tui_models_go old_pattern (txt "// gone") (only three_loops)
    = (Done tt, only three_loops, run_events tui_models_go))
   \/
   (finditer (literal_re old_block) three_loops <> [] /\
    exists eds,
      fst <$> eds = finditer (literal_re old_block) three_loops /\
      rewrite tui_models_go old_pattern (txt "// gone") (only three_loops)
      = (Done tt, <[tui_models_go := splice eds 0 three_loops]> (only three_loops),
         run_events tui_models_go) /\
      (BACKSLASH ∉ txt "// gone" ->
       eds = replace_by (txt "// gone")
                        (finditer (literal_re old_block) three_loops)))).
Proof.
  split; [vm_compute; reflexivity|].
  apply (C2_unchanged_or_all_replaced tui_models_go old_pattern (txt "// gone")
           (literal_re old_block) 0 (TLit <$> txt "// gone")
           three_loops (only three_loops)).
  - exact old_pattern_compiles.
  - vm_compute. reflexivity.
  - decide_by_computation.
  - reflexivity.
Defined.

Example three_loops_rewritten :
  files_after (rewrite tui_models_go old_pattern (txt "// gone") (only three_loops))
    !! tui_models_go
  = Some (lines [txt "// gone"; txt "// gone"; txt "}"; txt "// gone"]).
Proof. vm_compute. reflexivity. Qed.

(** The script on the same file: three loops replaced, the brace between
    them kept. *)
Example three_loops_by_main :
  files_after (main (only three_loops)) !! tui_models_go
  = Some (lines [new_block_written; new_block_written; txt "}"; new_block_written]).
Proof. vm_compute. reflexivity. Qed.

(** ** C3: what is written for the replacement *)

(** C3 fails on the script itself. On a file that holds the backlog loop
    the run writes [new_block_written], not [new_replacement]: each of
    the two backslash-n sequences of the replacement, meant to stay in the
    Go string literals as they are in the block that is replaced, has
    become a line break. *)
Theorem C3_replacement_is_reinterpreted :
  main (only old_block)
  = (Done tt, only new_block_written, run_events tui_models_go) /\
  new_block_written <> new_replacement /\
  length new_replacement = 647 /\ length new_block_written = 645.
Proof.
  split; [vm_compute; reflexivity|].
  split; [|split; vm_compute; reflexivity].
  intros H. apply (f_equal length) in H. vm_compute in H. discriminate.
Qed.

(** The same in the small: the two characters backslash, n of a
    replacement come out as one line break. *)
Example template_newline :
  re_sub (txt "a") (txt "x\ny") (txt "bab") = Done (txt "bx" ++ [LF] ++ txt "yb").
Proof. reflexivity. Qed.

(** A group reference in the replacement stands for the matched group. *)
Example template_group_reference :
  re_sub (txt "(a|ab)(c|bcd)(d?)") (txt "<\1|\2|\3>") (txt "abcd")
  = Done (txt "<a|bcd|>").
Proof. reflexivity. Qed.

(** An unknown escape in the replacement is an error, found before the
    string is scanned. *)
Example template_bad_escape :
  re_sub (txt "a") (txt "\q") (txt "b") = Raise ReError.
Proof. reflexivity. Qed.

(** ** C4: no match *)

Lemma finditer_nil_sub re ps (s : list N) :
  finditer re s = [] -> sub_loop (scan_fuel s) re ps false None s = s.
Proof.
  unfold finditer, scan_fuel.
  replace (2 * length s + 2) with (S (2 * length s + 1)) by lia. simpl.
  by destruct (search re false None s).
Qed.

(** C4 as stated fails when the script runs on a file with a CRLF line
    end in which the matcher matches nowhere: the run succeeds and the
    file is written with other bytes, the carriage return is gone. *)
Lemma C4_counterexample :
  re_finditer old_pattern crlf_file = Done [] /\
  main (only crlf_file)
  = (Done tt, only (txt "a" ++ [LF] ++ txt "b"), run_events tui_models_go) /\
  only (txt "a" ++ [LF] ++ txt "b") !! tui_models_go <> only crlf_file !! tui_models_go.
Proof.
  split; [vm_compute; reflexivity|]. split; [vm_compute; reflexivity|].
  vm_compute. discriminate.
Qed.

(** C4, amended: for a file without carriage returns in which a valid
    matcher matches nowhere, and a replacement that is a well-formed
    template, the run opens the file for writing, writes the content back
    as it was, prints the confirmation and succeeds; the file system is
    as before. *)
Theorem C4_no_match_is_silent_success
    path matcher replacement re groups ps (stored : list N)
    (fs : gmap string (list N)) :
  compile matcher = POk re groups ->
  compile_template groups replacement = TOk ps ->
  CR ∉ stored ->
  fs !! path = Some stored ->
  finditer re stored = [] ->
  rewrite path matcher replacement fs
  = (Done tt, fs,
     [EvOpen path ReadMode; EvOpen path WriteMode; EvPrint success_message]).
Proof.
  intros Hc Ht Hcr Hfs Hnone.
  rewrite rewrite_unfold, Hfs, universal_newlines_id by done.
  unfold re_sub. rewrite Hc, Ht, finditer_nil_sub by done.
  by rewrite insert_id.
Qed.

(** The scenario of the specification: the script against a file whose
    loop is indented by one more space on one line. *)
Lemma C4_no_match_is_silent_success_witness :
  finditer (literal_re old_block) drifted_file = [] /\
  main (only drifted_file)
  = (Done tt, only drifted_file,
     [EvOpen tui_models_go ReadMode; EvOpen tui_models_go WriteMode;
      EvPrint success_message]).
Proof.
  split; [vm_compute; reflexivity|].
  apply (C4_no_match_is_silent_success tui_models_go old_pattern new_replacement
           (literal_re old_block) 0 (TLit <$> new_block_written)
           drifted_file (only drifted_file)).
  - exact old_pattern_compiles.
  - exact new_replacement_template.
  - decide_by_computation.
  - reflexivity.
  - vm_compute. reflexivity.
Defined.

(** ** C5, C6: a matcher that does not compile *)

(** C5 as stated fails: with the invalid matcher [(] and no file at the
    path the run fails with FileNotFoundError, not with a pattern error;
    and with a file at the path the pattern error comes after the file
    has been opened and read. *)
Lemma C5_counterexample :
  compile (txt "(") = PError /\
  rewrite tui_models_go (txt "(") (txt "X") ∅
  = (Raise FileNotFoundError, ∅, [EvOpen tui_models_go ReadMode]) /\
  rewrite tui_models_go (txt "(") (txt "X") (only sample_file)
  = (Raise ReError, only sample_file, [EvOpen tui_models_go ReadMode]).
Proof. repeat split; vm_compute; reflexivity. Qed.

(** C5, amended: if the matcher is not a valid pattern and the path holds
    a file, the run fails with a pattern error that is raised after the
    file has been opened and read and before it is opened for writing;
    the file system is as before and nothing is printed. *)
Theorem C5_pattern_error_after_read
    path matcher replacement (stored : list N) (fs : gmap string (list N)) :
  compile matcher = PError ->
  fs !! path = Some stored ->
  rewrite path matcher replacement fs = (Raise ReError, fs, [EvOpen path ReadMode]).
Proof.
  intros Hc Hfs. rewrite rewrite_unfold, Hfs. unfold re_sub. by rewrite Hc.
Qed.

(** A doubled star in place of the script's pattern. *)
Lemma C5_pattern_error_after_read_witness :
  compile (txt "a**") = PError /\
  rewrite tui_models_go (txt "a**") new_replacement (only sample_file)
  = (Raise ReError, only sample_file, [EvOpen tui_models_go ReadMode]).
Proof.
  split; [reflexivity|].
  apply (C5_pattern_error_after_read tui_models_go (txt "a**") new_replacement
           sample_file (only sample_file)); reflexivity.
Defined.

(** C6: if the matcher does not compile, the run ends in an exception,
    the file is never opened for writing, and the file system, the target
    file included, is left as it was. *)
Theorem C6_pattern_error_leaves_files
    path matcher replacement (fs : gmap string (list N)) :
  compile matcher = PError ->
  (exists e, outcome_of (rewrite path matcher replacement fs) = Raise e) /\
  files_after (rewrite path matcher replacement fs) = fs /\
  EvOpen path WriteMode ∉ events_of (rewrite path matcher replacement fs).
Proof.
  intros Hc. rewrite rewrite_unfold. unfold re_sub. rewrite Hc.
  assert (EvOpen path WriteMode ∉ [EvOpen path ReadMode]) as Hev.
  { intros H%list_elem_of_singleton. discriminate. }
  destruct (fs !! path); (split; [eauto|]; split; done).
Qed.

(** An unclosed group in place of the script's pattern. *)
Lemma C6_pattern_error_leaves_files_witness :
  compile (txt "(for idx") = PError /\
  (exists e, outcome_of (rewrite tui_models_go (txt "(for idx") new_replacement
                           (only sample_file)) = Raise e) /\
  files_after (rewrite tui_models_go (txt "(for idx") new_replacement
                 (only sample_file)) = only sample_file /\
  EvOpen tui_models_go WriteMode
    ∉ events_of (rewrite tui_models_go (txt "(for idx") new_replacement
                   (only sample_file)).
Proof.
  split; [reflexivity|].
  apply (C6_pattern_error_leaves_files tui_models_go (txt "(for idx")
           new_replacement (only sample_file)).
  reflexivity.
Defined.

(** ** C7: no file at the path *)

(** C7: for every path that holds no file the run fails with
    FileNotFoundError at the first open, whatever the matcher and the
    replacement are; the file system is as before, so no file has been
    created at the path. *)
Theorem C7_missing_file_not_created
    path matcher replacement (fs : gmap string (list N)) :
  fs !! path = None ->
  rewrite path matcher replacement fs
  = (Raise FileNotFoundError, fs, [EvOpen path ReadMode]) /\
  files_after (rewrite path matcher replacement fs) !! path = None.
Proof.
  intros Hfs. rewrite rewrite_unfold, Hfs. done.
Qed.

(** The script on an empty file system. *)
Lemma C7_missing_file_not_created_witness :
  (∅ : gmap string (list N)) !! tui_models_go = None /\
  main ∅ = (Raise FileNotFoundError, ∅, [EvOpen tui_models_go ReadMode]) /\
  files_after (main ∅) !! tui_models_go = None.
Proof.
  split; [reflexivity|].
  apply (C7_missing_file_not_created tui_models_go old_pattern new_replacement ∅).
  reflexivity.
Defined.

(** ** C8: a second run *)

(** After a run of the script the file holds no carriage return: reading
    removes every one and the replacement brings none in. *)
Lemma universal_newlines_no_CR (s : list N) : CR ∉ universal_newlines s.
Proof.
  remember (length s) as n eqn:Hn.
  revert s Hn. induction (lt_wf n) as [n _ IH]. intros s ->.
  destruct s as [|c t]; simpl.
  - apply not_elem_of_nil.
  - destruct (c =? CR)%N eqn:E.
    + apply not_elem_of_cons. split; [done|].
      destruct t as [|d t']; [apply not_elem_of_nil|].
      destruct (d =? LF)%N; (eapply IH; [|reflexivity]); simpl; lia.
    + apply not_elem_of_cons. split.
      * intros Heq. subst c. by rewrite N.eqb_refl in E.
      * eapply IH; [|reflexivity]. simpl. lia.
Qed.

Lemma splice_avoids (c : N) : forall eds pos rest,
  Forall (fun ed => c ∉ ed.2) eds -> c ∉ rest -> c ∉ splice eds pos rest.
Proof.
  induction eds as [|[[b e] ins] eds IH]; intros pos rest Heds Hrest; simpl.
  - done.
  - apply Forall_cons in Heds as [Hins Heds]. simpl in Hins.
    rewrite !not_elem_of_app. split; [|split; [done|]].
    + intros Hin. apply Hrest. by eapply subseteq_take.
    + apply IH; [done|]. intros Hin. apply Hrest. by eapply subseteq_drop.
Qed.

Lemma rewrite_done_content path matcher replacement re groups ps
    (fs fs1 : gmap string (list N)) ev (rewritten : list N) :
  compile matcher = POk re groups ->
  compile_template groups replacement = TOk ps ->
  rewrite path matcher replacement fs = (Done tt, fs1, ev) ->
  fs1 !! path = Some rewritten ->
  exists stored,
    fs !! path = Some stored /\
    rewritten = sub_loop (scan_fuel (universal_newlines stored)) re ps false None
                         (universal_newlines stored).
Proof.
  intros Hc Ht. rewrite rewrite_unfold. unfold re_sub. rewrite Hc, Ht.
  destruct (fs !! path) as [stored|]; [|discriminate].
  intros [= <- _]. rewrite lookup_insert_eq. intros [= <-]. by exists stored.
Qed.

Lemma main_writes_no_CR (fs fs1 : gmap string (list N)) ev (rewritten : list N) :
  main fs = (Done tt, fs1, ev) ->
  fs1 !! tui_models_go = Some rewritten ->
  CR ∉ rewritten.
Proof.
  intros Hrun Hfs1.
  destruct (rewrite_done_content _ _ _ _ _ _ _ _ _ _ old_pattern_compiles
              new_replacement_template Hrun Hfs1) as (stored & _ & ->).
  rewrite (sub_loop_splice _ _ _ 0), edits_loop_literal. apply splice_avoids.
  - unfold replace_by. apply Forall_fmap, Forall_forall. intros span _. simpl.
    decide_by_computation.
  - apply universal_newlines_no_CR.
Qed.

Lemma re_finditer_done pattern re groups (s : list N) spans :
  compile pattern = POk re groups ->
  re_finditer pattern s = Done spans -> finditer re s = spans.
Proof. unfold re_finditer. intros ->. by intros [= ->]. Qed.

(** The step shared by the second-run results: a run on a file without
    carriage return in which the matcher matches nowhere, after a run that
    has succeeded with the same matcher and replacement. *)
Lemma rewrite_second_run
    path matcher replacement re groups (rewritten : list N)
    (fs fs1 : gmap string (list N)) (ev : list event) :
  compile matcher = POk re groups ->
  rewrite path matcher replacement fs = (Done tt, fs1, ev) ->
  fs1 !! path = Some rewritten ->
  finditer re rewritten = [] ->
  CR ∉ rewritten ->
  rewrite path matcher replacement fs1 = (Done tt, fs1, run_events path).
Proof.
  intros Hc Hrun Hfs1 Hnone Hcr.
  rewrite rewrite_unfold in Hrun. unfold re_sub in Hrun. rewrite Hc in Hrun.
  destruct (fs !! path) as [stored|]; [|discriminate].
  destruct (compile_template groups replacement) as [ps| |] eqn:Ht;
    try discriminate.
  rewrite rewrite_unfold, Hfs1, universal_newlines_id by done.
  unfold re_sub. rewrite Hc, Ht, finditer_nil_sub by done.
  by rewrite insert_id.
Qed.

(** C8 as stated fails when the first run brings a carriage return into
    the file. With the matcher [a] and the one-character replacement CR,
    the first run turns the file [a] into a lone CR; the matcher no
    longer occurs in it; and the second run, which reads the CR as a line
    feed, writes a line feed: the file has changed. *)
Lemma C8_counterexample :
  rewrite tui_models_go (txt "a") [CR] (only (txt "a"))
  = (Done tt, only [CR], run_events tui_models_go) /\
  re_finditer (txt "a") [CR] = Done [] /\
  rewrite tui_models_go (txt "a") [CR] (only [CR])
  = (Done tt, only [LF], run_events tui_models_go) /\
  (only [LF] !! tui_models_go) <> (only [CR] !! tui_models_go).
Proof.
  split; [vm_compute; reflexivity|]. split; [vm_compute; reflexivity|].
  split; [vm_compute; reflexivity|]. vm_compute. discriminate.
Qed.



(** ** C9: matches across lines *)




Example old_pattern_matches_across_lines :
  re_finditer old_pattern three_loops = Done [(0, 378); (379, 757); (760, 1138)].
Proof. vm_compute. reflexivity. Qed.

(** ** C10: the run as a function of the target file *)

(** Files other than the target are neither read nor written. *)
Lemma rewrite_frame path matcher replacement (fs : gmap string (list N)) other :
  other <> path ->
  files_after (rewrite path matcher replacement fs) !! other = fs !! other.
Proof.
  intros Hne. rewrite rewrite_unfold.
  destruct (fs !! path) as [stored|]; [|done].
  destruct (re_sub matcher replacement (universal_newlines stored)); [|done..].
  unfold files_after. simpl. by rewrite lookup_insert_ne.
Qed.



(** ** The loops end before their fuel does

    The fuel of the repeat loop and of the scan is only there to make the
    recursion structural: with the fuel that [run_re] and [re_sub] give,
    the loops stop by themselves, and more fuel changes nothing. *)

Lemma list_bind_ext_in {A B} (f g : A -> list B) (l : list A) :
  (forall x, x ∈ l -> f x = g x) -> l ≫= f = l ≫= g.
Proof.
  induction l as [|x l IH]; intros H; [done|].
  rewrite !bind_cons. f_equal.
  - apply H. by left.
  - apply IH. intros y Hy. apply H. by right.
Qed.

Section RepLoopFuel.
Variable body : mstate -> list mstate.
Hypothesis body_suffix :
  forall st st', st' ∈ body st -> m_rest st' `suffix_of` m_rest st.

Lemma rep_loop_fuel_enough (min : nat) (max : option nat) :
  forall fuel1 fuel2 count last st,
    (min - count) + length (m_rest st) + 2 <= fuel1 ->
    (min - count) + length (m_rest st) + 2 <= fuel2 ->
    rep_loop body min max fuel1 count last st
    = rep_loop body min max fuel2 count last st.
Proof using body_suffix.
  induction fuel1 as [|fuel1 IH]; intros fuel2 count last st H1 H2; [lia|].
  destruct fuel2 as [|fuel2]; [lia|]. simpl.
  destruct (count <? min) eqn:Hmin.
  - apply Nat.ltb_lt in Hmin. apply list_bind_ext_in. intros st' Hin.
    apply body_suffix, suffix_length in Hin. apply IH; lia.
  - apply Nat.ltb_ge in Hmin. f_equal.
    destruct (below count max && _); [|done].
    apply list_bind_ext_in. intros st' Hin.
    apply body_suffix, suffix_length in Hin.
    destruct (decide (length (m_rest st') = length (m_rest st))) as [Heq|Hlt].
    + destruct fuel1 as [|fuel1]; [lia|]. destruct fuel2 as [|fuel2]; [lia|].
      simpl. assert ((S count <? min) = false) as -> by (apply Nat.ltb_ge; lia).
      rewrite Heq, bool_decide_eq_true_2 by done.
      by rewrite andb_false_r.
    + apply IH; lia.
Qed.
End RepLoopFuel.

Lemma search_must_advance re rest prev f :
  search re true prev rest = Some f -> skipped f = [] -> matched f <> [].
Proof.
  destruct rest as [|c rest]; simpl.
  - destruct (match_here re true prev []) as [f'|] eqn:E; [|done].
    intros [= <-] _. apply match_here_split in E as (_ & _ & E). by apply E.
  - destruct (match_here re true prev (c :: rest)) as [f'|] eqn:E.
    + intros [= <-] _. apply match_here_split in E as (_ & _ & E). by apply E.
    + intros (f' & _ & ->)%fmap_Some. done.
Qed.

Lemma scan_need_next re must_advance prev rest f :
  search re must_advance prev rest = Some f ->
  scan_need (bool_decide (matched f = [])) (m_rest (resume f))
  < scan_need must_advance rest.
Proof.
  intros Hs. pose proof (search_split _ _ _ _ _ Hs) as Hrest.
  assert (length rest
          = length (skipped f) + length (matched f) + length (m_rest (resume f)))
    as Hlen by (rewrite Hrest at 1; rewrite !length_app; lia).
  unfold scan_need. case_bool_decide as Hm.
  - rewrite Hm in Hlen. simpl in Hlen.
    destruct must_advance; [|lia].
    destruct (skipped f) as [|c sk] eqn:Hsk; [|simpl in Hlen; lia].
    exfalso. by eapply search_must_advance.
  - destruct (matched f) as [|c m]; [done|]. simpl in Hlen.
    destruct must_advance; lia.
Qed.

Lemma sub_loop_fuel_enough re ps : forall fuel1 fuel2 must_advance prev rest,
  scan_need must_advance rest <= fuel1 ->
  scan_need must_advance rest <= fuel2 ->
  sub_loop fuel1 re ps must_advance prev rest
  = sub_loop fuel2 re ps must_advance prev rest.
Proof.
  induction fuel1 as [|fuel1 IH]; intros fuel2 must_advance prev rest H1 H2.
  { unfold scan_need in H1. destruct must_advance; lia. }
  destruct fuel2 as [|fuel2].
  { unfold scan_need in H2. destruct must_advance; lia. }
  simpl. destruct (search re must_advance prev rest) as [f|] eqn:Hs; [|done].
  pose proof (scan_need_next _ _ _ _ _ Hs). do 2 f_equal. apply IH; lia.
Qed.

Lemma finditer_loop_fuel_enough re : forall fuel1 fuel2 pos must_advance prev rest,
  scan_need must_advance rest <= fuel1 ->
  scan_need must_advance rest <= fuel2 ->
  finditer_loop fuel1 re pos must_advance prev rest
  = finditer_loop fuel2 re pos must_advance prev rest.
Proof.
  induction fuel1 as [|fuel1 IH]; intros fuel2 pos must_advance prev rest H1 H2.
  { unfold scan_need in H1. destruct must_advance; lia. }
  destruct fuel2 as [|fuel2].
  { unfold scan_need in H2. destruct must_advance; lia. }
  simpl. destruct (search re must_advance prev rest) as [f|] eqn:Hs; [|done].
  pose proof (scan_need_next _ _ _ _ _ Hs). f_equal. apply IH; lia.
Qed.

(** With the fuel of [re_sub] the scan ends because no further match is
    found: any larger fuel gives the same text. *)
Lemma scan_fuel_enough re ps (s : list N) fuel :
  scan_fuel s <= fuel ->
  sub_loop fuel re ps false None s = sub_loop (scan_fuel s) re ps false None s.
Proof.
  intros H. apply sub_loop_fuel_enough; unfold scan_need, scan_fuel in *; lia.
Qed.

(** Likewise for a repeat: [run_re] gives its loop enough fuel. *)
Lemma rep_fuel_enough r min max st fuel :
  length (m_rest st) + min + 2 <= fuel ->
  rep_loop (run_re r) min max fuel 0 None st = run_re (Rep min max r) st.
Proof.
  intros H. simpl. apply rep_loop_fuel_enough; [apply run_re_suffix|lia..].
Qed.

(** * Further properties of the script *)

(** ** Texts that begin with, or hold, another text *)

Lemma starts_with_prefix (p : list N) : forall t,
  starts_with p t = true <-> p `prefix_of` t.
Proof.
  induction p as [|x p IH]; intros t; simpl.
  - split; [intros _; apply prefix_nil|done].
  - destruct t as [|y t].
    + split; [done|]. by intros ?%prefix_nil_inv.
    + rewrite andb_true_iff, N.eqb_eq, IH. split.
      * intros [-> Hp]. by apply prefix_cons.
      * intros Hp. split; [by eapply prefix_cons_inv_1|by eapply prefix_cons_inv_2].
Qed.

Lemma prefix_app_cases (p u w : list N) :
  p `prefix_of` u ++ w ->
  p `prefix_of` u \/ exists v, p = u ++ v /\ v <> [] /\ v `prefix_of` w.
Proof.
  revert p. induction u as [|x u IH]; intros p Hp; simpl in *.
  - destruct p as [|y p]; [left; apply prefix_nil|].
    right. by exists (y :: p).
  - destruct p as [|y p]; [left; apply prefix_nil|].
    pose proof (prefix_cons_inv_1 _ _ _ _ Hp) as ->.
    apply prefix_cons_inv_2, IH in Hp as [Hp | (v & -> & Hv & Hp)].
    + left. by apply prefix_cons.
    + right. by exists v.
Qed.

Lemma prefix_app_short (v a b : list N) :
  v `prefix_of` a ++ b -> length v <= length a -> v `prefix_of` a.
Proof.
  intros Hp Hlen. apply prefix_app_cases in Hp as [Hp | (w & -> & Hw & _)]; [done|].
  rewrite length_app in Hlen. destruct w; [done|simpl in Hlen; lia].
Qed.

Lemma clear_of_spec (old new : list N) :
  clear_of old new = true ->
  old <> [] /\ length old <= length new /\
  (forall q, ~ old `prefix_of` drop q new) /\
  (forall u v, old = u ++ v -> u <> [] -> v <> [] -> ~ v `prefix_of` new) /\
  (forall u v, old = u ++ v -> u <> [] -> v <> [] -> ~ u `suffix_of` new).
Proof.
  unfold clear_of. rewrite !andb_true_iff.
  intros [[[Hocc Hedge] Hne%Nat.ltb_lt] Hlen%Nat.leb_le].
  assert (old <> []) as Hold by (intros ->; simpl in Hne; lia).
  split; [done|]. split; [done|].
  rewrite forallb_forall in Hedge.
  assert (forall u v, old = u ++ v -> u <> [] -> v <> [] ->
            In (length u) (seq 1 (length old - 1))) as Hk.
  { intros u v -> Hu Hv. apply in_seq. rewrite length_app.
    destruct u; [done|]. destruct v; [done|]. simpl. lia. }
  split; [|split].
  - intros q Hq. apply negb_true_iff in Hocc.
    destruct (decide (q <= length new)) as [Hle|Hgt].
    + assert (occurs_in old new = true) as Hyes; [|congruence].
      apply existsb_exists. exists q. split; [apply in_seq; lia|].
      by apply starts_with_prefix.
    + rewrite drop_ge in Hq by lia. by apply prefix_nil_inv in Hq.
  - intros u v E Hu Hv Hp.
    specialize (Hedge _ (Hk u v E Hu Hv)). apply andb_true_iff in Hedge as [Hb _].
    apply negb_true_iff in Hb. rewrite E, drop_app_length in Hb.
    apply starts_with_prefix in Hp. congruence.
  - intros u v E Hu Hv Hp.
    specialize (Hedge _ (Hk u v E Hu Hv)). apply andb_true_iff in Hedge as [_ Hc].
    apply negb_true_iff in Hc. rewrite E, take_app_length in Hc.
    apply suffix_prefix_reverse, starts_with_prefix in Hp. congruence.
Qed.

Lemma search_literal_absent (lit : list N) : forall rest must_advance prev,
  (forall q, ~ lit `prefix_of` drop q rest) ->
  search (literal_re lit) must_advance prev rest = None.
Proof.
  induction rest as [|c rest IH]; intros must_advance prev Hno; simpl.
  - rewrite match_here_literal_miss; [done|]. apply (Hno 0).
  - rewrite match_here_literal_miss by apply (Hno 0).
    rewrite IH; [done|]. intros q. apply (Hno (S q)).
Qed.

(** ** Where the replacement cannot bring the matcher back *)

Section Clear.
Variables old new : list N.
Hypothesis clear : clear_of old new = true.

Lemma sub_loop_clear : forall fuel must_advance prev rest q,
  length rest < fuel ->
  ~ old `prefix_of`
      drop q (sub_loop fuel (literal_re old) (TLit <$> new) must_advance prev rest).
Proof using clear.
  destruct (clear_of_spec _ _ clear) as (Hold & Hlen & Hin & Hend & Hbeg).
  induction fuel as [|fuel IH]; intros must_advance prev rest q Hfuel; [lia|].
  simpl. destruct (search _ must_advance prev rest) as [f|] eqn:Hs.
  - pose proof (search_split _ _ _ _ _ Hs) as Hrest.
    destruct (search_literal_some _ _ _ _ _ Hold Hs) as [Hm Hgap].
    rewrite expand_literal.
    assert (0 < length old) as Hpos by (destruct old; [done|simpl; lia]).
    assert (length (m_rest (resume f)) < fuel) as Hfuel'.
    { apply (f_equal length) in Hrest. rewrite !length_app, Hm in Hrest. lia. }
    specialize (IH (bool_decide (matched f = [])) (m_prev (resume f))
                   (m_rest (resume f))).
    set (out := sub_loop fuel (literal_re old) (TLit <$> new) _ _ _) in *.
    destruct (decide (q < length (skipped f))) as [Hlt|Hge].
    + rewrite drop_app_le by lia. intros Hp.
      apply prefix_app_cases in Hp as [Hp | (v & E & Hv & Hp)].
      * apply (Hgap q Hlt). rewrite Hrest, drop_app_le by lia.
        by apply prefix_app_r.
      * apply (Hend (drop q (skipped f)) v E); [|done|].
        -- intros Hnil. apply (f_equal length) in Hnil.
           rewrite length_drop in Hnil. simpl in Hnil. lia.
        -- eapply prefix_app_short; [done|].
           apply (f_equal length) in E. rewrite length_app in E. lia.
    + rewrite drop_app_ge by lia.
      destruct (decide (q - length (skipped f) < length new)) as [Hlt|Hge'].
      * rewrite drop_app_le by lia. intros Hp.
        apply prefix_app_cases in Hp as [Hp | (v & E & Hv & Hp)].
        -- by eapply Hin.
        -- apply (Hbeg (drop (q - length (skipped f)) new) v E); [|done|].
           ++ intros Hnil. apply (f_equal length) in Hnil.
              rewrite length_drop in Hnil. simpl in Hnil. lia.
           ++ apply suffix_drop.
      * rewrite drop_app_ge by lia. by apply IH.
  - by eapply search_literal_none.
Qed.

Lemma finditer_after_sub matcher groups replacement (s : list N) out :
  compile matcher = POk (literal_re old) groups ->
  compile_template groups replacement = TOk (TLit <$> new) ->
  re_sub matcher replacement s = Done out ->
  finditer (literal_re old) out = [].
Proof using clear.
  intros Hc Ht. unfold re_sub. rewrite Hc, Ht. intros [= <-].
  unfold finditer, scan_fuel.
  replace (2 * length (sub_loop (2 * length s + 2) (literal_re old) (TLit <$> new)
                                false None s) + 2)
    with (S (2 * length (sub_loop (2 * length s + 2) (literal_re old) (TLit <$> new)
                                  false None s) + 1)) by lia.
  simpl. rewrite search_literal_absent; [done|].
  intros q. apply sub_loop_clear. lia.
Qed.
End Clear.

Lemma script_blocks_clear : clear_of old_block new_block_written = true.
Proof. vm_compute. reflexivity. Qed.

(** ** A run whose replacement stands for one text *)

(** The content written when the template holds no group reference. *)
Lemma rewrite_literal_run path matcher replacement re groups (t stored : list N)
    (fs : gmap string (list N)) :
  compile matcher = POk re groups ->
  compile_template groups replacement = TOk (TLit <$> t) ->
  fs !! path = Some stored ->
  rewrite path matcher replacement fs
  = (Done tt,
     <[path := splice (replace_by t (finditer re (universal_newlines stored))) 0
                      (universal_newlines stored)]> fs,
     run_events path) /\
  re_sub matcher replacement (universal_newlines stored)
  = Done (splice (replace_by t (finditer re (universal_newlines stored))) 0
                 (universal_newlines stored)).
Proof.
  intros Hc Ht Hfs.
  assert (re_sub matcher replacement (universal_newlines stored)
          = Done (splice (replace_by t (finditer re (universal_newlines stored))) 0
                         (universal_newlines stored))) as Hsub.
  { unfold re_sub, finditer. rewrite Hc, Ht.
    by rewrite (sub_loop_splice _ _ _ 0), edits_loop_literal. }
  split; [|done]. by rewrite rewrite_unfold, Hfs, Hsub.
Qed.

Lemma replace_by_avoids (c : N) (t : list N) spans :
  c ∉ t -> Forall (fun ed : nat * nat * list N => c ∉ ed.2) (replace_by t spans).
Proof.
  intros Hc. unfold replace_by. apply Forall_fmap, Forall_forall.
  by intros span _.
Qed.

(** X1: whatever the matcher, the replacement and the outcome, a run
    neither creates nor removes a file, and every file other than the
    target holds afterwards what it held before. *)
Theorem X1_only_the_target_is_touched
    path matcher replacement (fs : gmap string (list N)) :
  dom (files_after (rewrite path matcher replacement fs)) = dom fs /\
  forall other, other <> path ->
    files_after (rewrite path matcher replacement fs) !! other = fs !! other.
Proof.
  rewrite rewrite_unfold. unfold files_after.
  destruct (fs !! path) as [stored|] eqn:Hfs; [|done].
  destruct (re_sub matcher replacement (universal_newlines stored)); simpl; [|done..].
  split; [by apply dom_insert_lookup_L|].
  intros other Hne. by rewrite lookup_insert_ne.
Qed.

(** The script next to a file of notes. *)
Lemma X1_only_the_target_is_touched_witness :
  dom (files_after (main (<["notes.txt" := txt "x"]> (only sample_file))))
  = dom (<["notes.txt" := txt "x"]> (only sample_file)) /\
  files_after (main (<["notes.txt" := txt "x"]> (only sample_file))) !! "notes.txt"
  = Some (txt "x").
Proof.
  destruct (X1_only_the_target_is_touched tui_models_go old_pattern new_replacement
              (<["notes.txt" := txt "x"]> (only sample_file))) as [Hdom Hother].
  split; [exact Hdom|].
  unfold main. rewrite Hother; [reflexivity|discriminate].
Defined.


(** X3: a replacement that is not a well-formed template makes the run
    fail with [re.error] even where the matcher matches nowhere: the
    template is parsed before the content is scanned. The failure comes
    after the read and before the open for writing, and the file system
    is as it was. *)
Theorem X3_bad_replacement_fails_before_write
    path matcher replacement re groups (stored : list N)
    (fs : gmap string (list N)) :
  compile matcher = POk re groups ->
  compile_template groups replacement = TError ->
  fs !! path = Some stored ->
  rewrite path matcher replacement fs = (Raise ReError, fs, [EvOpen path ReadMode]).
Proof.
  intros Hc Ht Hfs. rewrite rewrite_unfold, Hfs. unfold re_sub. by rewrite Hc, Ht.
Qed.

(** The script's pattern with a replacement that ends in a lone
    backslash-q, on the file in which the pattern matches nowhere. *)
Lemma X3_bad_replacement_fails_before_write_witness :
  compile_template 0 (txt "// TODO \q") = TError /\
  finditer (literal_re old_block) drifted_file = [] /\
  rewrite tui_models_go old_pattern (txt "// TODO \q") (only drifted_file)
  = (Raise ReError, only drifted_file, [EvOpen tui_models_go ReadMode]).
Proof.
  split; [reflexivity|]. split; [vm_compute; reflexivity|].
  apply (X3_bad_replacement_fails_before_write tui_models_go old_pattern
           (txt "// TODO \q") (literal_re old_block) 0 drifted_file
           (only drifted_file)).
  - exact old_pattern_compiles.
  - reflexivity.
  - reflexivity.
Defined.

(** X4: on every file at its path, with LF, CRLF or CR line ends, the
    script succeeds. It writes the content as read, that is with every
    line end turned into LF, in which each span found for the pattern is
    replaced by [new_block_written]; each span holds the old loop, and
    every occurrence of the old loop in the content as read starts inside
    a span. *)
Theorem X4_script_on_any_file (stored : list N) (fs : gmap string (list N)) :
  fs !! tui_models_go = Some stored ->
  exists spans,
    re_finditer old_pattern (universal_newlines stored) = Done spans /\
    main fs
    = (Done tt,
       <[tui_models_go := splice (replace_by new_block_written spans) 0
                                 (universal_newlines stored)]> fs,
       run_events tui_models_go) /\
    (forall b e, (b, e) ∈ spans ->
       take (e - b) (drop b (universal_newlines stored)) = old_block) /\
    (forall p, old_block `prefix_of` drop p (universal_newlines stored) ->
       exists b e, (b, e) ∈ spans /\ b <= p < e).
Proof.
  intros Hfs.
  assert (old_block <> []) as Hne by decide_by_computation.
  exists (finditer (literal_re old_block) (universal_newlines stored)).
  split; [|split; [|split]].
  - unfold re_finditer. by rewrite old_pattern_compiles.
  - apply (rewrite_literal_run _ _ _ _ _ _ _ _ old_pattern_compiles
             new_replacement_template Hfs).
  - intros b e Hin.
    pose proof (finditer_literal_text old_block _ 0 _ _ _ b e Hne Hin) as H.
    by rewrite Nat.sub_0_r in H.
  - intros p Hp.
    destruct (finditer_literal_covers old_block
                (scan_fuel (universal_newlines stored)) 0 false None
                (universal_newlines stored) p Hne)
      as (b & e & Hin & Hb); [unfold scan_fuel; lia|done|].
    exists b, e. split; [done|]. lia.
Qed.

(** The script on the file with two loops and a CRLF line end between
    them. *)
Lemma X4_script_on_any_file_witness :
  universal_newlines crlf_two_loops = old_block ++ [LF] ++ old_block /\
  exists spans,
    re_finditer old_pattern (universal_newlines crlf_two_loops) = Done spans /\
    main (only crlf_two_loops)
    = (Done tt,
       <[tui_models_go := splice (replace_by new_block_written spans) 0
                                 (universal_newlines crlf_two_loops)]>
         (only crlf_two_loops),
       run_events tui_models_go) /\
    (forall b e, (b, e) ∈ spans ->
       take (e - b) (drop b (universal_newlines crlf_two_loops)) = old_block) /\
    (forall p, old_block `prefix_of` drop p (universal_newlines crlf_two_loops) ->
       exists b e, (b, e) ∈ spans /\ b <= p < e).
Proof.
  split; [vm_compute; reflexivity|].
  apply (X4_script_on_any_file crlf_two_loops (only crlf_two_loops)).
  reflexivity.
Defined.

(** X5: when the template of the replacement stands for one text without
    a carriage return, as the script's does, the file that a successful
    run leaves holds no carriage return: every CRLF and CR line end of
    the original has become LF. *)
Theorem X5_written_file_has_no_CR
    path matcher replacement re groups (t rewritten : list N)
    (fs fs1 : gmap string (list N)) (ev : list event) :
  compile matcher = POk re groups ->
  compile_template groups replacement = TOk (TLit <$> t) ->
  CR ∉ t ->
  rewrite path matcher replacement fs = (Done tt, fs1, ev) ->
  fs1 !! path = Some rewritten ->
  CR ∉ rewritten.
Proof.
  intros Hc Ht Hcr Hrun Hfs1.
  destruct (rewrite_done_content _ _ _ _ _ _ _ _ _ _ Hc Ht Hrun Hfs1)
    as (stored & _ & ->).
  rewrite (sub_loop_splice _ _ _ 0), edits_loop_literal. apply splice_avoids.
  - by apply replace_by_avoids.
  - apply universal_newlines_no_CR.
Qed.

(** The script on a file whose first line ends in CRLF. *)
Lemma X5_written_file_has_no_CR_witness :
  CR ∈ crlf_sample /\
  main (only crlf_sample)
  = (Done tt, only sample_file_rewritten, run_events tui_models_go) /\
  CR ∉ sample_file_rewritten.
Proof.
  split; [decide_by_computation|]. split; [vm_compute; reflexivity|].
  apply (X5_written_file_has_no_CR tui_models_go old_pattern new_replacement
           (literal_re old_block) 0 new_block_written sample_file_rewritten
           (only crlf_sample) (only sample_file_rewritten)
           (run_events tui_models_go)).
  - exact old_pattern_compiles.
  - exact new_replacement_template.
  - decide_by_computation.
  - vm_compute. reflexivity.
  - reflexivity.
Defined.



(** The conditions of [clear_of] are all needed; where the inserted text
    is shorter than the matcher's, replacing can join the texts around
    it: with the matcher [abc] and the replacement [b], the file [aabcc]
    becomes [abc]. *)
Example shorter_replacement_rejoins :
  clear_of (txt "abc") (txt "b") = false /\
  re_sub (txt "abc") (txt "b") (txt "aabcc") = Done (txt "abc").
Proof. split; reflexivity. Qed.

(** A second run with the same matcher and replacement, from the file
    system that the first run has left, when the replacement is clear of
    the matcher and brings no carriage return. *)
Lemma second_run_identity
    path matcher replacement groups (old new : list N)
    (fs : gmap string (list N)) :
  compile matcher = POk (literal_re old) groups ->
  compile_template groups replacement = TOk (TLit <$> new) ->
  clear_of old new = true ->
  CR ∉ new ->
  files_after (rewrite path matcher replacement
                 (files_after (rewrite path matcher replacement fs)))
  = files_after (rewrite path matcher replacement fs) /\
  outcome_of (rewrite path matcher replacement
                (files_after (rewrite path matcher replacement fs)))
  = outcome_of (rewrite path matcher replacement fs).
Proof.
  intros Hc Ht Hclear Hcr.
  destruct (fs !! path) as [stored|] eqn:Hfs.
  - destruct (rewrite_literal_run _ _ _ _ _ _ _ _ Hc Ht Hfs) as [Hrun Hsub].
    set (out := splice _ 0 _) in *.
    assert (rewrite path matcher replacement (<[path := out]> fs)
            = (Done tt, <[path := out]> fs, run_events path)) as Hagain.
    { apply (rewrite_second_run _ _ _ _ _ out fs _ _ Hc Hrun).
      - apply lookup_insert_eq.
      - by eapply finditer_after_sub.
      - apply splice_avoids; [by apply replace_by_avoids|].
        apply universal_newlines_no_CR. }
    rewrite Hrun. unfold files_after, outcome_of. simpl. by rewrite Hagain.
  - assert (rewrite path matcher replacement fs
            = (Raise FileNotFoundError, fs, [EvOpen path ReadMode])) as Hrun
      by (by rewrite rewrite_unfold, Hfs).
    rewrite Hrun. unfold files_after, outcome_of. simpl. by rewrite Hrun.
Qed.

(** X7: running the script twice is the same as running it once. From
    every file system, the second run ends as the first did and leaves
    the file system as the first left it: an error stays the same error,
    and after a success the second run finds nothing to replace and
    writes back what it reads. *)
Theorem X7_script_twice_is_script_once (fs : gmap string (list N)) :
  files_after (main (files_after (main fs))) = files_after (main fs) /\
  outcome_of (main (files_after (main fs))) = outcome_of (main fs).
Proof.
  apply (second_run_identity tui_models_go old_pattern new_replacement 0
           old_block new_block_written fs).
  - exact old_pattern_compiles.
  - exact new_replacement_template.
  - exact script_blocks_clear.
  - decide_by_computation.
Qed.

(** X8: a run in which the matcher matches nowhere leaves the file system
    exactly as it was if and only if the file holds no carriage return.
    With a carriage return in the file the run still succeeds, and the
    file is written back changed. *)
Theorem X8_unmatched_file_kept_iff_no_CR
    path matcher replacement re groups ps (stored : list N)
    (fs : gmap string (list N)) :
  compile matcher = POk re groups ->
  compile_template groups replacement = TOk ps ->
  fs !! path = Some stored ->
  finditer re (universal_newlines stored) = [] ->
  outcome_of (rewrite path matcher replacement fs) = Done tt /\
  (files_after (rewrite path matcher replacement fs) = fs <-> CR ∉ stored).
Proof.
  intros Hc Ht Hfs Hnone. rewrite rewrite_unfold, Hfs. unfold re_sub.
  rewrite Hc, Ht, finditer_nil_sub by done.
  unfold outcome_of, files_after. simpl. split; [done|]. split.
  - intros Hsame. apply (f_equal (fun m => m !! path)) in Hsame.
    rewrite lookup_insert_eq, Hfs in Hsame. injection Hsame as Hsame.
    rewrite <- Hsame. apply universal_newlines_no_CR.
  - intros Hcr. rewrite universal_newlines_id by done. by apply insert_id.
Qed.

(** The script on the file whose loop is indented by one more space. *)
Lemma X8_unmatched_file_kept_iff_no_CR_witness :
  finditer (literal_re old_block) (universal_newlines drifted_file) = [] /\
  outcome_of (main (only drifted_file)) = Done tt /\
  (files_after (main (only drifted_file)) = only drifted_file
   <-> CR ∉ drifted_file).
Proof.
  split; [vm_compute; reflexivity|].
  apply (X8_unmatched_file_kept_iff_no_CR tui_models_go old_pattern new_replacement
           (literal_re old_block) 0 (TLit <$> new_block_written)
           drifted_file (only drifted_file)).
  - exact old_pattern_compiles.
  - exact new_replacement_template.
  - reflexivity.
  - vm_compute. reflexivity.
Defined.

(** ** Renaming characters

    Where a regex has neither wildcard nor anchor, the engine only ever
    asks whether a character of the text is the character that the regex
    names. So a renaming of characters that keeps different characters
    different, applied to the regex and to the text, is followed by the
    engine step by step. *)

Lemma swap_inj (a b : N) : Inj (=) (=) (swap a b).
Proof.
  intros x y. unfold swap.
  destruct (x =? a)%N eqn:Hxa, (x =? b)%N eqn:Hxb,
           (y =? a)%N eqn:Hya, (y =? b)%N eqn:Hyb;
    rewrite ?N.eqb_eq, ?N.eqb_neq in *; congruence.
Qed.

Lemma bind_fmap_commute {A B} (g : A -> A) (g' : B -> B)
    (h k : A -> list B) (l : list A) :
  (forall x, h (g x) = g' <$> k x) -> (g <$> l) ≫= h = g' <$> (l ≫= k).
Proof.
  intros H. induction l as [|x l IH]; [done|].
  rewrite fmap_cons, !bind_cons, fmap_app, H. by rewrite IH.
Qed.

Lemma find_fmap {A} (g : A -> A) (P Q : A -> bool) (l : list A) :
  (forall x, P (g x) = Q x) -> find P (g <$> l) = g <$> find Q l.
Proof.
  intros H. induction l as [|x l IH]; [done|]. rewrite fmap_cons. simpl.
  rewrite H. by destruct (Q x).
Qed.

Section Rename.
Variable f : N -> N.
Hypothesis f_inj : Inj (=) (=) f.

Lemma step_char_rename c st :
  step_char (N.eqb (f c)) (rename_st f st) = rename_st f <$> step_char (N.eqb c) st.
Proof using f_inj.
  unfold step_char. destruct st as [prev [|x rest] caps]; simpl; [done|].
  assert ((f c =? f x)%N = (c =? x)%N) as ->.
  { destruct (c =? x)%N eqn:E.
    - apply N.eqb_eq in E. subst. apply N.eqb_refl.
    - apply N.eqb_neq. intros Heq. apply f_inj in Heq. by apply N.eqb_neq in E. }
  by destruct (c =? x)%N.
Qed.

Lemma consumed_rename st st' :
  consumed (rename_st f st) (rename_st f st') = f <$> consumed st st'.
Proof. unfold consumed. simpl. by rewrite !length_fmap, fmap_take. Qed.

Lemma set_group_rename n st st' :
  set_group n (rename_st f st) (rename_st f st') = rename_st f (set_group n st st').
Proof.
  unfold set_group. by rewrite consumed_rename.
Qed.

Lemma rep_loop_rename (body body' : mstate -> list mstate) min max :
  (forall st, body' (rename_st f st) = rename_st f <$> body st) ->
  forall fuel count last st,
    rep_loop body' min max fuel count last (rename_st f st)
    = rename_st f <$> rep_loop body min max fuel count last st.
Proof.
  intros Hbody. induction fuel as [|fuel IH]; intros count last st; [done|].
  simpl. rewrite length_fmap, Hbody. destruct (count <? min).
  - apply bind_fmap_commute. intros x. apply IH.
  - rewrite fmap_app. f_equal.
    destruct (below count max && _); [|done].
    apply bind_fmap_commute. intros x. apply IH.
Qed.

Lemma run_re_rename (r : regex) : line_blind r = true ->
  forall st, run_re (rename_re f r) (rename_st f st) = rename_st f <$> run_re r st.
Proof using f_inj.
  induction r as [|c| | | |r1 IH1 r2 IH2|r1 IH1 r2 IH2|min max r IH|n r IH];
    simpl; intros Hblind st; try discriminate.
  - done.
  - apply step_char_rename.
  - apply andb_true_iff in Hblind as [H1 H2].
    rewrite IH1 by done. apply bind_fmap_commute. intros x. by apply IH2.
  - apply andb_true_iff in Hblind as [H1 H2].
    by rewrite IH1, IH2, fmap_app.
  - rewrite length_fmap. apply rep_loop_rename. by apply IH.
  - rewrite IH by done. rewrite <- !list_fmap_compose.
    apply list_fmap_ext. intros i st' _. simpl. apply set_group_rename.
Qed.

Lemma match_here_rename (r : regex) must_advance prev rest :
  line_blind r = true ->
  match_here (rename_re f r) must_advance (f <$> prev) (f <$> rest)
  = rename_found f <$> match_here r must_advance prev rest.
Proof using f_inj.
  intros Hblind. unfold match_here.
  change (MState (f <$> prev) (f <$> rest) [])
    with (rename_st f (MState prev rest [])).
  rewrite run_re_rename by done.
  rewrite (find_fmap _ _ (fun st' => negb must_advance
                                     || (length (m_rest st') <? length rest)));
    [|intros st'; simpl; by rewrite !length_fmap].
  destruct (find _ (run_re r (MState prev rest []))) as [st'|]; [|done].
  simpl. unfold rename_found. simpl. f_equal.
  change (MState (f <$> prev) (f <$> rest) [])
    with (rename_st f (MState prev rest [])).
  by rewrite consumed_rename.
Qed.

Lemma search_rename (r : regex) : line_blind r = true ->
  forall rest must_advance prev,
    search (rename_re f r) must_advance (f <$> prev) (f <$> rest)
    = rename_found f <$> search r must_advance prev rest.
Proof using f_inj.
  intros Hblind. induction rest as [|c rest IH]; intros must_advance prev.
  - change (f <$> []) with (@nil N). simpl.
    pose proof (match_here_rename r must_advance prev [] Hblind) as H.
    change (f <$> []) with (@nil N) in H. rewrite H.
    by destruct (match_here r must_advance prev []).
  - rewrite fmap_cons. simpl.
    pose proof (match_here_rename r must_advance prev (c :: rest) Hblind) as H.
    rewrite fmap_cons in H. rewrite H.
    destruct (match_here r must_advance prev (c :: rest)); [done|].
    change (Some (f c)) with (f <$> Some c). rewrite IH.
    by destruct (search r false (Some c) rest).
Qed.

Lemma finditer_loop_rename (r : regex) : line_blind r = true ->
  forall fuel pos must_advance prev rest,
    finditer_loop fuel (rename_re f r) pos must_advance (f <$> prev) (f <$> rest)
    = finditer_loop fuel r pos must_advance prev rest.
Proof using f_inj.
  intros Hblind. induction fuel as [|fuel IH]; intros pos must_advance prev rest;
    [done|].
  simpl. rewrite search_rename by done.
  destruct (search r must_advance prev rest) as [fd|]; [|done].
  simpl. rewrite !length_fmap.
  assert (bool_decide (f <$> matched fd = []) = bool_decide (matched fd = [])) as ->.
  { apply bool_decide_ext. split; [apply fmap_nil_inv|by intros ->]. }
  f_equal. apply IH.
Qed.

Lemma finditer_rename (r : regex) (s : list N) :
  line_blind r = true -> finditer (rename_re f r) (f <$> s) = finditer r s.
Proof using f_inj.
  intros Hblind. unfold finditer, scan_fuel. rewrite length_fmap.
  change (@None N) with (f <$> @None N).
  by apply finditer_loop_rename.
Qed.
End Rename.

(** ** Every place where the matcher matches is found *)

Lemma last_char_app (a b : list N) : forall prev,
  last_char prev (a ++ b) = last_char (last_char prev a) b.
Proof. induction a as [|x a IH]; intros prev; simpl; [done|apply IH]. Qed.

Lemma reaches_refl st : reaches st st.
Proof. by exists []. Qed.

Lemma reaches_trans st1 st2 st3 : reaches st1 st2 -> reaches st2 st3 -> reaches st1 st3.
Proof.
  intros (k1 & E1 & P1) (k2 & E2 & P2). exists (k1 ++ k2).
  split; [by rewrite E1, E2, (assoc (++))|]. by rewrite last_char_app, <- P1.
Qed.

Lemma step_char_reaches (p : N -> bool) (st st' : mstate) :
  st' ∈ step_char p st -> reaches st st'.
Proof.
  unfold step_char. destruct (m_rest st) as [|c t] eqn:E.
  - intros H. by apply elem_of_nil in H.
  - destruct (p c).
    + intros ->%list_elem_of_singleton. by exists [c].
    + intros H. by apply elem_of_nil in H.
Qed.

Section RepLoopReaches.
Variable body : mstate -> list mstate.
Hypothesis body_reaches : forall st st', st' ∈ body st -> reaches st st'.

Lemma rep_loop_reaches (min : nat) (max : option nat) (fuel : nat) :
  forall count last st st',
    st' ∈ rep_loop body min max fuel count last st -> reaches st st'.
Proof using body_reaches.
  induction fuel as [|fuel IH]; intros count last st st'; simpl.
  - intros H. by apply elem_of_nil in H.
  - destruct (count <? min).
    + intros (mid & Hin & Hmid)%list_elem_of_bind.
      eapply reaches_trans; [by apply body_reaches | by eapply IH].
    + intros [Hmore | ->%list_elem_of_singleton]%elem_of_app;
        [|apply reaches_refl].
      destruct (below count max && _); [|by apply elem_of_nil in Hmore].
      apply list_elem_of_bind in Hmore as (mid & Hin & Hmid).
      eapply reaches_trans; [by apply body_reaches | by eapply IH].
Qed.
End RepLoopReaches.

Lemma run_re_reaches (r : regex) :
  forall st st', st' ∈ run_re r st -> reaches st st'.
Proof.
  induction r as [|c| | | |r1 IH1 r2 IH2|r1 IH1 r2 IH2|min max r IH|n r IH];
    intros st st'; simpl.
  - intros ->%list_elem_of_singleton. apply reaches_refl.
  - apply step_char_reaches.
  - apply step_char_reaches.
  - destruct (at_bol st); [intros ->%list_elem_of_singleton; apply reaches_refl|].
    intros H. by apply elem_of_nil in H.
  - destruct (at_eol st); [intros ->%list_elem_of_singleton; apply reaches_refl|].
    intros H. by apply elem_of_nil in H.
  - intros (mid & Hin & Hmid)%list_elem_of_bind.
    eapply reaches_trans; [by apply IH1 | by apply IH2].
  - intros [H | H]%elem_of_app; auto.
  - by apply rep_loop_reaches.
  - intros (mid & -> & Hmid)%list_elem_of_fmap.
    destruct (IH _ _ Hmid) as (k & E & P). by exists k.
Qed.

Lemma match_here_prev re must_advance prev rest fd :
  match_here re must_advance prev rest = Some fd ->
  m_prev (resume fd) = last_char prev (matched fd).
Proof.
  unfold match_here. intros (st' & Hfind & ->)%fmap_Some. simpl.
  apply find_some in Hfind as [Hin _].
  apply list_elem_of_In, run_re_reaches in Hin as (k & E & P). simpl in *.
  by rewrite (consumed_app (MState prev rest []) st' k E).
Qed.

Lemma search_scan re : forall rest must_advance prev,
  match search re must_advance prev rest with
  | Some fd =>
      m_prev (resume fd) = last_char prev (skipped fd ++ matched fd) /\
      forall p, p < length (skipped fd) ->
        match_here re (if p is 0 then must_advance else false)
                   (last_char prev (take p rest)) (drop p rest) = None
  | None =>
      forall p, p <= length rest ->
        match_here re (if p is 0 then must_advance else false)
                   (last_char prev (take p rest)) (drop p rest) = None
  end.
Proof.
  induction rest as [|c rest IH]; intros must_advance prev; simpl.
  - destruct (match_here re must_advance prev []) as [fd|] eqn:E.
    + pose proof (match_here_split _ _ _ _ _ E) as (-> & _ & _).
      split; [by apply match_here_prev in E|]. simpl. lia.
    + intros [|p] Hp; [done|simpl in Hp; lia].
  - destruct (match_here re must_advance prev (c :: rest)) as [fd|] eqn:E.
    + pose proof (match_here_split _ _ _ _ _ E) as (-> & _ & _).
      split; [by apply match_here_prev in E|]. simpl. lia.
    + specialize (IH false (Some c)).
      destruct (search re false (Some c) rest) as [fd|]; simpl.
      * destruct IH as [Hprev Hgap]. split; [done|].
        intros [|p] Hp; [done|]. simpl.
        specialize (Hgap p ltac:(lia)). by destruct p.
      * intros [|p] Hp; [done|]. simpl.
        specialize (IH p ltac:(lia)). by destruct p.
Qed.

Lemma finditer_loop_covers re : forall fuel pos must_advance prev rest p,
  scan_need must_advance rest <= fuel ->
  p <= length rest ->
  is_Some (match_here re false (last_char prev (take p rest)) (drop p rest)) ->
  (exists b e, (b, e) ∈ finditer_loop fuel re pos must_advance prev rest
               /\ b <= pos + p <= e)
  \/ (must_advance = true /\ p = 0).
Proof.
  induction fuel as [|fuel IH]; intros pos must_advance prev rest p Hfuel Hp Hm.
  { unfold scan_need in Hfuel. destruct must_advance; lia. }
  simpl. pose proof (search_scan re rest must_advance prev) as Hscan.
  assert (forall q,
    match_here re (if q is 0 then must_advance else false)
               (last_char prev (take q rest)) (drop q rest) = None ->
    q = p -> must_advance = true /\ p = 0) as Hmiss.
  { intros q Hnone ->. destruct p as [|p].
    - destruct must_advance; [done|]. rewrite Hnone in Hm. by destruct Hm.
    - rewrite Hnone in Hm. by destruct Hm. }
  destruct (search re must_advance prev rest) as [fd|] eqn:Hs.
  - destruct Hscan as [Hprev Hgap].
    pose proof (search_split _ _ _ _ _ Hs) as Hrest.
    pose proof (scan_need_next _ _ _ _ _ Hs) as Hneed.
    assert (length rest = length (skipped fd) + length (matched fd)
                          + length (m_rest (resume fd))) as Hlen
      by (rewrite Hrest at 1; rewrite !length_app; lia).
    destruct (decide (p < length (skipped fd))) as [Hlt|Hge].
    { right. by eapply Hmiss; [apply Hgap|]. }
    destruct (decide (p <= length (skipped fd) + length (matched fd))) as [Hin|Hout].
    { left. exists (pos + length (skipped fd)),
                   (pos + length (skipped fd) + length (matched fd)).
      split; [by left|lia]. }
    destruct (IH (pos + length (skipped fd) + length (matched fd))
                 (bool_decide (matched fd = [])) (m_prev (resume fd))
                 (m_rest (resume fd))
                 (p - (length (skipped fd) + length (matched fd))))
      as [(b & e & Hbe & Hb) | [_ Hzero]]; [lia|lia| | |lia].
    + assert (rest = (skipped fd ++ matched fd) ++ m_rest (resume fd)) as Hrest'
        by (by rewrite <- (assoc (++))).
      assert (p = length (skipped fd ++ matched fd)
                  + (p - (length (skipped fd) + length (matched fd)))) as Hp'
        by (rewrite length_app; lia).
      rewrite Hprev, <- last_char_app.
      replace (drop (p - (length (skipped fd) + length (matched fd)))
                    (m_rest (resume fd))) with (drop p rest)
        by (rewrite Hrest' at 1; rewrite Hp' at 1; by rewrite drop_app_add).
      replace ((skipped fd ++ matched fd)
               ++ take (p - (length (skipped fd) + length (matched fd)))
                       (m_rest (resume fd))) with (take p rest); [done|].
      rewrite Hrest' at 1. rewrite Hp' at 1. by rewrite take_app_add.
    + left. exists b, e. split; [by right|lia].
  - right. by eapply Hmiss; [apply Hscan|].
Qed.

(** The spans of [finditer] hold every place where the matcher matches:
    whatever offset of the text the engine finds a match at, that offset
    lies in one of the spans, its two ends included. *)
Lemma finditer_covers re (s : list N) p :
  p <= length s -> matches_at re s p ->
  exists b e, (b, e) ∈ finditer re s /\ b <= p <= e.
Proof.
  intros Hp Hm.
  destruct (finditer_loop_covers re (scan_fuel s) 0 false None s p)
    as [(b & e & Hin & Hb) | [? _]]; [unfold scan_need, scan_fuel; lia|done|done| |done].
  exists b, e. split; [done|lia].
Qed.
